(** * Connection admission and reconnection of the code-server session server

    A shallow embedding of [src/connection.ts] (the [Connection] classes) and
    of the server file ([Server], [MainServer]: the request listener, the
    [upgrade] handler and [connect]).

    The program is single-threaded and event-driven, so it is modelled as a
    state machine: a [World] holds the objects the code mutates (the
    connection table, the [Connection] objects, the armed timers) and a
    [trace] of the calls made on the collaborators that are not part of these
    files (the [Protocol] wrapper, sockets, the child process, emitters).
    Every method of the source is a function on [World]; every callback the
    source registers is an [Event] the environment may deliver. *)

From Stdlib Require Import ZArith NArith.
From Stdlib.Strings Require Import Byte Ascii String.
From stdpp Require Import base gmap strings list fin_maps pretty.

Local Open Scope string_scope.
Local Open Scope list_scope.

(** ** Values that cross the module boundaries *)

(** Object identities. *)
Abbreviation ProtocolId := nat (only parsing).
Abbreviation ConnId := nat (only parsing).
Abbreviation TimerId := nat (only parsing).
Abbreviation Pid := nat (only parsing).

(** [ConnectionType] of [vs/platform/remote/common/remoteAgentConnection]. *)
Inductive ConnectionType := Management | ExtensionHost | Tunnel.

#[global] Instance ConnectionType_eq_dec : EqDecision ConnectionType.
Proof. solve_decision. Defined.

Definition ConnectionType_to_nat (t : ConnectionType) : nat :=
  match t with Management => 1 | ExtensionHost => 2 | Tunnel => 3 end.

Definition ConnectionType_of_nat (n : nat) : option ConnectionType :=
  match n with
  | 1 => Some Management | 2 => Some ExtensionHost | 3 => Some Tunnel
  | _ => None
  end.

#[global] Instance ConnectionType_countable : Countable ConnectionType.
Proof.
  apply (inj_countable ConnectionType_to_nat ConnectionType_of_nat).
  by intros [].
Defined.

(** TypeScript types are erased when the code runs.  The two argument
    positions below receive, at one call site each, an object of another class
    than the one the callee declares, so the model keeps the class of the
    object that is passed.

    [SocketArg]: what arrives in the [socket: ISocket] position of
    [Connection.reconnect]. *)
Inductive SocketArg :=
  | RawSocket (s : nat)                 (* an [ISocket] *)
  | ProtocolObject (p : ProtocolId).    (* a [Protocol] wrapper *)

(** [BufferArg]: what arrives in the [buffer: VSBuffer] position.  For the log
    service object the field records what [(obj.buffer).toString("base64")]
    evaluates to on it: [None] when the evaluation throws a [TypeError]
    (the object has no [buffer] member, as in the [ILogService] interface). *)
Inductive BufferArg :=
  | VSBuffer (bytes : list byte)
  | LogService (buffer_toString : option string).

(** ** [Buffer.prototype.toString("base64")] *)

Definition base64_alphabet : string :=
  "ABCDEFGHIJKLMNOPQRSTUVWXYZabcdefghijklmnopqrstuvwxyz0123456789+/".

Definition base64_digit (n : N) : ascii :=
  default "="%char (String.get (N.to_nat (n mod 64)) base64_alphabet).

Fixpoint base64 (bs : list byte) : string :=
  match bs with
  | [] => ""
  | [a] =>
      let n := (Byte.to_N a * 65536)%N in
      String (base64_digit (n / 262144))
        (String (base64_digit (n / 4096)) "==")
  | [a; b] =>
      let n := (Byte.to_N a * 65536 + Byte.to_N b * 256)%N in
      String (base64_digit (n / 262144))
        (String (base64_digit (n / 4096))
           (String (base64_digit (n / 64)) "="))
  | a :: b :: c :: rest =>
      let n := (Byte.to_N a * 65536 + Byte.to_N b * 256 + Byte.to_N c)%N in
      String (base64_digit (n / 262144))
        (String (base64_digit (n / 4096))
           (String (base64_digit (n / 64))
              (String (base64_digit n) (base64 rest))))
  end.

(** ** Messages, errors and the calls made on collaborators *)

(** The acknowledgement [ok]: [{ type: "ok" }], [{}] or [{ debugPort }]. *)
Inductive Ack := AckOk | AckEmpty | AckDebugPort (debugPort : Z).

(** Thrown values: [new Error(message)] and the engine's [TypeError]. *)
Inductive Exn :=
  | Error (message : string)
  | TypeError (message : string).

Record IExtHostSocketMessage := {
  type : string;
  initialDataChunk : string;
  skipWebSocketFrames : bool;
}.

(** One constructor per call the two files make on an object they do not
    define.  The [trace] of a [World] lists them in program order. *)
Inductive Effect :=
  | SendMessage (p : ProtocolId) (m : Ack)
  | ReadEntireBuffer (p : ProtocolId)
  | ProtocolDispose (p : ProtocolId) (error : option Exn)
  | SendDisconnect (p : ProtocolId)
  | BeginAcceptReconnection (p : ProtocolId) (socket : SocketArg)
      (buffer : option BufferArg)
  | EndAcceptReconnection (p : ProtocolId)
  | ProtocolTunnel (p : ProtocolId)
  | SocketEnd (p : ProtocolId)      (* p.getSocket().end() *)
  | SocketPause (p : ProtocolId)    (* p.getUnderlyingSocket().pause() *)
  | Fork (pid : Pid)                (* cp.fork(bootstrap-fork, ...) *)
  | Kill (pid : Pid)                (* process.kill() *)
  | ProcessSend (pid : Pid) (m : IExtHostSocketMessage)
      (handle : ProtocolId)         (* process.send(m, p.getUnderlyingSocket()) *)
  | FireClose (c : ConnId)          (* this._onClose.fire() of connection c *)
  | FireClientConnect (p : ProtocolId) (c : ConnId)
  | Uncaught (e : Exn).             (* an exception leaves an event callback *)

#[global] Instance Ack_eq_dec : EqDecision Ack.
Proof. solve_decision. Defined.
#[global] Instance Exn_eq_dec : EqDecision Exn.
Proof. solve_decision. Defined.
#[global] Instance SocketArg_eq_dec : EqDecision SocketArg.
Proof. solve_decision. Defined.
#[global] Instance byte_eq_dec : EqDecision byte.
Proof. intros a b. destruct (Byte.byte_eq_dec a b); [left|right]; done. Defined.
#[global] Instance BufferArg_eq_dec : EqDecision BufferArg.
Proof. solve_decision. Defined.
#[global] Instance IExtHostSocketMessage_eq_dec :
  EqDecision IExtHostSocketMessage.
Proof. solve_decision. Defined.
#[global] Instance Effect_eq_dec : EqDecision Effect.
Proof. solve_decision. Defined.

(** ** Objects *)

(** A listener on a connection's [onClose] event.  The only one the two files
    register is the closure of [MainServer.connect],
    [() => connections.delete(protocol.options.reconnectionToken)], where
    [connections] is the token map of the connection's type.  The closure
    holds that map object itself; the outer map never replaces or removes the
    map of a type, so the listener is modelled as a deletion in the map that
    the outer map holds for [ty]. *)
Inductive CloseListener :=
  | DeleteEntry (ty : ConnectionType) (token : string).

(** The state the subclasses add to [Connection]. *)
Inductive ConnectionKind :=
  | ManagementConnection (timeout : option TimerId)
  | ExtensionHostConnection (process : Pid)
      (buffer : BufferArg)      (* captured by the [listen] closure of [spawn] *)
      (listening : bool).       (* [listen] is still a "message" listener *)

(** The abstract class [Connection] and its subclass state. *)
Record Connection := {
  protocol : ProtocolId;
  disposed : bool;
  onClose : list CloseListener;   (* listeners of the [_onClose] emitter *)
  kind : ConnectionKind;
}.

Definition Connection_set_disposed (b : bool) (c : Connection) : Connection :=
  {| protocol := protocol c; disposed := b; onClose := onClose c;
     kind := kind c |}.

Definition Connection_set_kind (k : ConnectionKind) (c : Connection)
  : Connection :=
  {| protocol := protocol c; disposed := disposed c; onClose := onClose c;
     kind := k |}.

Definition Connection_add_listener (l : CloseListener) (c : Connection)
  : Connection :=
  {| protocol := protocol c; disposed := disposed c;
     onClose := onClose c ++ [l]; kind := kind c |}.

(** The state of the server process. *)
Record World := {
  (* [MainServer.connections]: Map<ConnectionType, Map<string, Connection>> *)
  connections : gmap ConnectionType (gmap string ConnId);
  (* the [Connection] objects created so far, by identity *)
  heap : gmap ConnId Connection;
  next_conn : ConnId;
  (* armed timers: the callback is [() => this.dispose()] of the connection,
     with the delay in milliseconds *)
  timers : gmap TimerId (ConnId * Z);
  next_timer : TimerId;
  next_pid : Pid;
  next_protocol : ProtocolId;
  (* [this.services.get(ILogService)] *)
  logService : BufferArg;
  trace : list Effect;
}.

Definition set_connections (f : gmap ConnectionType (gmap string ConnId) →
                                gmap ConnectionType (gmap string ConnId))
  (w : World) : World :=
  {| connections := f (connections w); heap := heap w;
     next_conn := next_conn w; timers := timers w; next_timer := next_timer w;
     next_pid := next_pid w; next_protocol := next_protocol w;
     logService := logService w; trace := trace w |}.

Definition set_heap (f : gmap ConnId Connection → gmap ConnId Connection)
  (w : World) : World :=
  {| connections := connections w; heap := f (heap w);
     next_conn := next_conn w; timers := timers w; next_timer := next_timer w;
     next_pid := next_pid w; next_protocol := next_protocol w;
     logService := logService w; trace := trace w |}.

Definition set_timers (f : gmap TimerId (ConnId * Z) → gmap TimerId (ConnId * Z))
  (w : World) : World :=
  {| connections := connections w; heap := heap w;
     next_conn := next_conn w; timers := f (timers w);
     next_timer := next_timer w;
     next_pid := next_pid w; next_protocol := next_protocol w;
     logService := logService w; trace := trace w |}.

Definition emit (es : list Effect) (w : World) : World :=
  {| connections := connections w; heap := heap w;
     next_conn := next_conn w; timers := timers w; next_timer := next_timer w;
     next_pid := next_pid w; next_protocol := next_protocol w;
     logService := logService w; trace := trace w ++ es |}.

(** Allocation of a [Connection] object, a timer handle, a child process and
    a [Protocol] object: each gets an identity that was never used. *)
Definition alloc_conn (conn : Connection) (w : World) : ConnId * World :=
  (next_conn w,
   {| connections := connections w; heap := <[next_conn w := conn]> (heap w);
      next_conn := S (next_conn w); timers := timers w;
      next_timer := next_timer w;
      next_pid := next_pid w; next_protocol := next_protocol w;
      logService := logService w; trace := trace w |}).

Definition alloc_pid (w : World) : Pid * World :=
  (next_pid w,
   {| connections := connections w; heap := heap w;
      next_conn := next_conn w; timers := timers w;
      next_timer := next_timer w;
      next_pid := S (next_pid w); next_protocol := next_protocol w;
      logService := logService w; trace := trace w |}).

Definition alloc_protocol (w : World) : ProtocolId * World :=
  (next_protocol w,
   {| connections := connections w; heap := heap w;
      next_conn := next_conn w; timers := timers w;
      next_timer := next_timer w;
      next_pid := next_pid w; next_protocol := S (next_protocol w);
      logService := logService w; trace := trace w |}).

(** [setTimeout(() => this.dispose(), ms)] called by connection [c]. *)
Definition setTimeout (c : ConnId) (ms : Z) (w : World) : TimerId * World :=
  (next_timer w,
   {| connections := connections w; heap := heap w;
      next_conn := next_conn w;
      timers := <[next_timer w := (c, ms)]> (timers w);
      next_timer := S (next_timer w);
      next_pid := next_pid w; next_protocol := next_protocol w;
      logService := logService w; trace := trace w |}).

(** [clearTimeout(handle)]; [undefined] and a handle that is no longer armed
    are ignored. *)
Definition clearTimeout (handle : option TimerId) (w : World) : World :=
  match handle with
  | Some t => set_timers (delete t) w
  | None => w
  end.

(** The server right after its constructor. *)
Definition init (log : BufferArg) : World :=
  {| connections := ∅; heap := ∅; next_conn := 0; timers := ∅;
     next_timer := 0; next_pid := 0; next_protocol := 0;
     logService := log; trace := [] |}.

(** [table w ty token]: [connections.get(ty)?.get(token)]. *)
Definition table (w : World) (ty : ConnectionType) (token : string)
  : option ConnId :=
  connections w !! ty ≫= λ m, m !! token.

(** [this._onClose.fire()]: the listeners run in registration order. *)
Definition run_listener (l : CloseListener) (w : World) : World :=
  match l with
  | DeleteEntry ty token => set_connections (alter (delete token) ty) w
  end.

Definition fire_onClose (c : ConnId) (w : World) : World :=
  match heap w !! c with
  | Some conn => foldl (λ w l, run_listener l w) (emit [FireClose c] w)
                   (onClose conn)
  | None => w
  end.

(** ** [class ManagementConnection extends Connection] *)

Module Management.

Definition wait : Z := 1000 * 60.

(** [new ManagementConnection(protocol)]: the constructor only registers
    the two protocol listeners, delivered below as [onSocketClose] and
    as [dispose] (for [protocol.onClose]). *)
Definition new (p : ProtocolId) (w : World) : ConnId * World :=
  alloc_conn {| protocol := p; disposed := false; onClose := [];
                kind := ManagementConnection None |} w.

(** [protocol.onSocketClose(() => { this.timeout = setTimeout(...) })] *)
Definition onSocketClose (c : ConnId) (w : World) : World :=
  match heap w !! c with
  | Some conn =>
      match kind conn with
      | ManagementConnection _ =>
          let '(t, w) := setTimeout c wait w in
          set_heap <[c := Connection_set_kind
                            (ManagementConnection (Some t)) conn]> w
      | _ => w
      end
  | None => w
  end.

Definition reconnect (c : ConnId) (socket : SocketArg) (buffer : BufferArg)
  (w : World) : World :=
  match heap w !! c with
  | Some conn =>
      match kind conn with
      | ManagementConnection timeout =>
          let w := clearTimeout timeout w in
          emit [BeginAcceptReconnection (protocol conn) socket (Some buffer);
                EndAcceptReconnection (protocol conn)] w
      | _ => w
      end
  | None => w
  end.

Definition dispose (c : ConnId) (w : World) : World :=
  match heap w !! c with
  | Some conn =>
      match kind conn with
      | ManagementConnection timeout =>
          if disposed conn then w
          else
            let w := clearTimeout timeout w in
            let w := set_heap <[c := Connection_set_disposed true conn]> w in
            let w := emit [SendDisconnect (protocol conn);
                           ProtocolDispose (protocol conn) None;
                           SocketEnd (protocol conn)] w in
            fire_onClose c w
      | _ => w
      end
  | None => w
  end.

End Management.

(** ** [class ExtensionHostConnection extends Connection]

    The relays of the child's stdout, stderr and console messages to the log
    service call nothing but the log service and are left out. *)

Module ExtensionHost.

(** [(buffer.buffer as Buffer).toString("base64")] *)
Definition toString_base64 (buffer : BufferArg) : option string :=
  match buffer with
  | VSBuffer bytes => Some (base64 bytes)
  | LogService r => r
  end.

(** [spawn(buffer)]: forks the child and registers the listeners on it:
    "error" and "exit" (delivered as [dispose]) and [listen]. *)
Definition spawn (w : World) : Pid * World :=
  let '(pid, w) := alloc_pid w in
  (pid, emit [Fork pid] w).

(** [new ExtensionHostConnection(protocol, buffer, log)] *)
Definition new (p : ProtocolId) (buffer : BufferArg) (w : World)
  : ConnId * World :=
  let w := emit [ProtocolDispose p None] w in
  let '(pid, w) := spawn w in
  alloc_conn {| protocol := p; disposed := false; onClose := [];
                kind := ExtensionHostConnection pid buffer true |} w.

Definition dispose (c : ConnId) (w : World) : World :=
  match heap w !! c with
  | Some conn =>
      match kind conn with
      | ExtensionHostConnection pid _ _ =>
          if disposed conn then w
          else
            let w := set_heap <[c := Connection_set_disposed true conn]> w in
            let w := emit [Kill pid; SocketEnd (protocol conn)] w in
            fire_onClose c w
      | _ => w
      end
  | None => w
  end.

(** The object literal [initMessage] of [sendInitMessage]. *)
Definition initMessage (chunk : string) (nodeSocket : bool)
  : IExtHostSocketMessage :=
  {| type := "VSCODE_EXTHOST_IPC_SOCKET";
     initialDataChunk := chunk;
     skipWebSocketFrames := nodeSocket |}.

(** [nodeSocket] is the answer of
    [this.protocol.getSocket() instanceof NodeSocket] at the call. *)
Definition sendInitMessage (c : ConnId) (buffer : BufferArg)
  (nodeSocket : bool) (w : World) : World * option Exn :=
  match heap w !! c with
  | Some conn =>
      match kind conn with
      | ExtensionHostConnection pid _ _ =>
          let w := emit [SocketPause (protocol conn)] w in
          match toString_base64 buffer with
          | Some chunk =>
              (emit [ProcessSend pid (initMessage chunk nodeSocket)
                       (protocol conn)] w, None)
          | None =>
              (w, Some (TypeError
                          "Cannot read property 'toString' of undefined"))
          end
      | _ => (w, None)
      end
  | None => (w, None)
  end.

Definition reconnect (c : ConnId) (socket : SocketArg) (buffer : BufferArg)
  (nodeSocket : bool) (w : World) : World * option Exn :=
  match heap w !! c with
  | Some conn =>
      match kind conn with
      | ExtensionHostConnection _ _ _ =>
          let w := emit [BeginAcceptReconnection (protocol conn) socket None;
                         ProtocolDispose (protocol conn) None] w in
          sendInitMessage c buffer nodeSocket w
      | _ => (w, None)
      end
  | None => (w, None)
  end.

(** The [listen] closure of [spawn], called with a message of the child
    whose [type] member is [message_type]. *)
Definition listen (c : ConnId) (message_type : string) (nodeSocket : bool)
  (w : World) : World * option Exn :=
  match heap w !! c with
  | Some conn =>
      match kind conn with
      | ExtensionHostConnection pid buffer true =>
          if decide (message_type = "VSCODE_EXTHOST_IPC_READY") then
            let w := set_heap <[c := Connection_set_kind
                                 (ExtensionHostConnection pid buffer false)
                                 conn]> w in
            sendInitMessage c buffer nodeSocket w
          else (w, None)
      | _ => (w, None)
      end
  | None => (w, None)
  end.

End ExtensionHost.

(** Dynamic dispatch of the two abstract methods of [Connection]. *)
Definition Connection_reconnect (c : ConnId) (socket : SocketArg)
  (buffer : BufferArg) (nodeSocket : bool) (w : World) : World * option Exn :=
  match kind <$> heap w !! c with
  | Some (ManagementConnection _) =>
      (Management.reconnect c socket buffer w, None)
  | Some (ExtensionHostConnection _ _ _) =>
      ExtensionHost.reconnect c socket buffer nodeSocket w
  | None => (w, None)
  end.

Definition Connection_dispose (c : ConnId) (w : World) : World :=
  match kind <$> heap w !! c with
  | Some (ManagementConnection _) => Management.dispose c w
  | Some (ExtensionHostConnection _ _ _) => ExtensionHost.dispose c w
  | None => w
  end.

(** ** [class MainServer extends Server]: the upgrade path *)

Module MainServer.

(** The [options] object built by [createProtocol]. *)
Record ProtocolOptions := {
  reconnectionToken : string;
  reconnection : bool;
  skipWebSocketFrames : bool;
}.

(** What [createProtocol] reads of the upgrade request: the [upgrade]
    header, and the parsed query of [request.url] ([None] when the url is
    empty).  The url is one that [url.parse] accepts, and each parameter
    occurs in it at most once, so that its value is a string. *)
Record IncomingMessage := {
  upgrade_header : option string;
  query : option (gmap string string);
}.

Definition createProtocol (request : IncomingMessage)
  : ProtocolOptions + Exn :=
  if decide (upgrade_header request = Some "websocket") then
    let q := default ∅ (query request) in
    inl {| reconnectionToken := default "" (q !! "reconnectionToken");
           reconnection := bool_decide (q !! "reconnection" = Some "true");
           skipWebSocketFrames :=
             bool_decide (q !! "skipWebSocketFrames" = Some "true") |}
  else inr (Error "HTTP/1.1 400 Bad Request").

(** [getDebugPort]: "TODO: implement", returns [undefined]. *)
Definition getDebugPort : option Z := None.

Definition UnrecognizedReconnectionToken : Exn :=
  Error "Unrecognized reconnection token".
Definition DuplicateReconnectionToken : Exn :=
  Error "Duplicate reconnection token".
Definition UnrecognizedConnectionType : Exn :=
  Error "Unrecognized connection type".

(** [if (!this.connections.has(ty)) { this.connections.set(ty, new Map()); }] *)
Definition ensure_map (ty : ConnectionType) (w : World) : World :=
  if decide (is_Some (connections w !! ty)) then w
  else set_connections <[ty := ∅]> w.

(** [connect(message, protocol)], from the point where
    [await this.getDebugPort()] resumes: the rest of the method runs without
    suspension.  [desired] is [message.desiredConnectionType] ([None] for a
    value outside the enum), [buffered] the answer of
    [protocol.readEntireBuffer()]. *)
Definition connect (desired : option ConnectionType) (p : ProtocolId)
  (options : ProtocolOptions) (buffered : list byte) (nodeSocket : bool)
  (w : World) : World * option Exn :=
  match desired with
  | Some (ExtensionHost as ty) | Some (Management as ty) =>
      let debugPort := getDebugPort in
      let ok :=
        if decide (ty = ExtensionHost) then
          match debugPort with
          | Some d => if decide (d = 0%Z) then AckEmpty else AckDebugPort d
          | None => AckEmpty
          end
        else AckOk in
      let w := ensure_map ty w in
      let token := reconnectionToken options in
      let has := bool_decide (is_Some (table w ty token)) in
      if reconnection options && has then
        let w := emit [SendMessage p ok] w in
        let buffer := VSBuffer buffered in
        let w := emit [ReadEntireBuffer p] w in
        let w := emit [ProtocolDispose p None] w in
        match table w ty token with
        | Some existing =>
            Connection_reconnect existing (ProtocolObject p) buffer
              nodeSocket w
        | None => (w, None)
        end
      else if reconnection options || has then
        (w, Some (if reconnection options
                  then UnrecognizedReconnectionToken
                  else DuplicateReconnectionToken))
      else
        let w := emit [SendMessage p ok] w in
        let '(connection, w) :=
          if decide (ty = Management) then
            let '(connection, w) := Management.new p w in
            (connection, emit [FireClientConnect p connection] w)
          else
            ExtensionHost.new p (logService w) w in
        let w := set_connections (alter <[token := connection]> ty) w in
        let w := set_heap (alter (Connection_add_listener
                                    (DeleteEntry ty token)) connection) w in
        (w, None)
  | Some Tunnel => (emit [ProtocolTunnel p] w, None)
  | None => (w, Some UnrecognizedConnectionType)
  end.

(** The ["upgrade"] listener, once [protocol.handshake()] has delivered
    its message. *)
Definition upgrade (request : IncomingMessage)
  (desired : option ConnectionType) (buffered : list byte)
  (nodeSocket : bool) (w : World) : World :=
  match createProtocol request with
  | inl options =>
      let '(p, w) := alloc_protocol w in
      match connect desired p options buffered nodeSocket w with
      | (w, Some error) => emit [ProtocolDispose p (Some error)] w
      | (w, None) => w
      end
  | inr error => emit [Uncaught error] w
  end.

End MainServer.

(** ** The event loop *)

(** What the environment can deliver to the callbacks the code registered.
    Events of a protocol or a child process are named by the connection that
    owns it. *)
Inductive Event :=
  | Upgrade (request : MainServer.IncomingMessage)
      (desired : option ConnectionType) (buffered : list byte)
      (nodeSocket : bool)
  | ProtocolClose (c : ConnId)
  | SocketClose (c : ConnId)
  | TimerFire (t : TimerId)
  | ProcessError (c : ConnId)
  | ProcessExit (c : ConnId)
  | ProcessMessage (c : ConnId) (message_type : string) (nodeSocket : bool).

Definition step (w : World) (ev : Event) : World :=
  match ev with
  | Upgrade request desired buffered nodeSocket =>
      MainServer.upgrade request desired buffered nodeSocket w
  | ProtocolClose c => Management.dispose c w
  | SocketClose c => Management.onSocketClose c w
  | TimerFire t =>
      match timers w !! t with
      | Some (c, _) => Management.dispose c (set_timers (delete t) w)
      | None => w
      end
  | ProcessError c | ProcessExit c => ExtensionHost.dispose c w
  | ProcessMessage c message_type nodeSocket =>
      match ExtensionHost.listen c message_type nodeSocket w with
      | (w, Some error) => emit [Uncaught error] w
      | (w, None) => w
      end
  end.

Definition run (evs : list Event) (w : World) : World := foldl step w evs.

(** ** [class Server]: the plain HTTP request listener *)

Module Server.

Inductive HttpCode := Ok | NotFound | BadRequest.

Definition HttpCode_value (c : HttpCode) : Z :=
  match c with Ok => 200 | NotFound => 404 | BadRequest => 400 end.

(** The [code] member of a thrown value: a number on [HttpError], a string
    such as ["ENOENT"] on the errors of [fs], absent otherwise. *)
Inductive ErrorCode :=
  | NumberCode (n : Z)
  | StringCode (s : string)
  | NoCode.

#[global] Instance ErrorCode_eq_dec : EqDecision ErrorCode.
Proof. solve_decision. Defined.

Record Thrown := { message : string; code : ErrorCode }.

(** [new HttpError(message, code)] *)
Definition HttpError (message : string) (code : Z) : Thrown :=
  {| message := message; code := NumberCode code |}.

Record IncomingMessage := {
  method : string;
  url : option string;
}.

(** The [Response] interface returned by [handleRequest]. *)
Record Response := {
  content : option string;
  response_code : option Z;
  headers : list (string * string);
}.

(** The calls made on the [http.ServerResponse]. *)
Inductive ResponseCall :=
  | writeHead (status : Z) (headers : list (string * string))
  | end_ (body : option string).

Section RequestListener.

(** [S] is the state of the server object.  [handle] stands for lines
    97 to 107 of the listener: [url.parse], [decodeURIComponent], the
    split of the path, and the abstract method [handleRequest]; it
    returns the response or the value thrown. *)
Context {S : Type}.
Variable handle : S → IncomingMessage → S * (Response + Thrown).

Definition requestListener (s : S) (request : IncomingMessage)
  : S * list ResponseCall :=
  let '(s, outcome) :=
    if decide (method request ≠ "GET") then
      (s, inr (A := Response)
            (HttpError ("Unsupported method " +:+ method request)
               (HttpCode_value BadRequest)))
    else handle s request in
  match outcome with
  | inl r =>
      let status :=
        match response_code r with
        | Some c => if decide (c = 0%Z) then HttpCode_value Ok else c
        | None => HttpCode_value Ok
        end in
      (s, [writeHead status
             (("Cache-Control", "max-age=86400") :: headers r);
           end_ (content r)])
  | inr error =>
      let error :=
        if decide (code error = StringCode "ENOENT"
                   ∨ code error = StringCode "EISDIR")
        then HttpError "Not found" (HttpCode_value NotFound)
        else error in
      (s, [writeHead
             (match code error with NumberCode n => n | _ => 500%Z end)
             [];
           end_ (Some (message error))])
  end.

End RequestListener.

End Server.

(** ** [class Server]: the resources behind a [GET]

    JavaScript strings are represented by their UTF-8 bytes: the characters
    the code below tests for ("/", "&", the line terminators) keep their
    byte sequences, which occur nowhere else in well-formed UTF-8. *)

Module Resources.

Import Server.

(** The characters that [.] of a regular expression does not match:
    U+000A, U+000D, U+2028 and U+2029. *)
Definition line_terminators : list string :=
  [String (ascii_of_nat 10) "";
   String (ascii_of_nat 13) "";
   String (ascii_of_nat 226) (String (ascii_of_nat 128)
     (String (ascii_of_nat 168) ""));
   String (ascii_of_nat 226) (String (ascii_of_nat 128)
     (String (ascii_of_nat 169) ""))].

Fixpoint has_line_terminator (s : string) : bool :=
  match s with
  | "" => false
  | String _ rest =>
      existsb (λ t, String.prefix t s) line_terminators
      || has_line_terminator rest
  end.

(** The longest prefix without "/", and the rest. *)
Fixpoint span_non_slash (s : string) : string * string :=
  match s with
  | "" => ("", "")
  | String a rest =>
      if decide (a = "/"%char) then ("", s)
      else let '(x, y) := span_non_slash rest in (String a x, y)
  end.

(** [fullPath.match(...)] of the listener: the first group is an optional
    "/" followed by characters other than "/", the second group is any
    characters but line terminators up to the end.  The result is the two
    groups, or [None] for [null].  Both quantifiers are greedy; giving
    characters back only makes the second group longer, so the match fails
    exactly when the rest after the greedy first group holds a line
    terminator. *)
Definition match_path (fullPath : string) : option (string * string) :=
  let '(g1, g2) :=
    match fullPath with
    | String a rest =>
        if decide (a = "/"%char)
        then let '(x, y) := span_non_slash rest in (String a x, y)
        else span_non_slash fullPath
    | "" => ("", "")
    end in
  if has_line_terminator g2 then None else Some (g1, g2).

(** [p.replace(/\/$/, "")] *)
Fixpoint drop_trailing_slash (p : string) : string :=
  match p with
  | "" => ""
  | String a rest =>
      match rest with
      | "" => if decide (a = "/"%char) then "" else p
      | _ => String a (drop_trailing_slash rest)
      end
  end.

(** [(p) => p !== "/" ? p.replace(/\/$/, "") : p] *)
Definition strip (p : string) : string :=
  if decide (p ≠ "/") then drop_trailing_slash p else p.

(** [const [, base, requestPath] = match ? match.map(...) : ["", "", ""]] *)
Definition splitPath (fullPath : string) : string * string :=
  match match_path fullPath with
  | Some (g1, g2) => (strip g1, strip g2)
  | None => ("", "")
  end.

(** A string or [undefined] as a condition: the empty string is falsy. *)
Definition truthy (s : option string) : option string :=
  match s with
  | Some "" => None
  | _ => s
  end.

(** The object literal indexed by [extname(filePath)], in [getResource] and
    in [getMediaMime] of [util.ts].  [extname] returns the empty string or a
    string that starts with ".", so no inherited member is ever read. *)
Definition mime_by_extension (ext : string) : option string :=
  if decide (ext = ".css") then Some "text/css"
  else if decide (ext = ".html") then Some "text/html"
  else if decide (ext = ".js") then Some "text/javascript"
  else if decide (ext = ".json") then Some "application/json"
  else None.

Section Routes.

(** What the library and the operating system answer:
    [url.parse(u, true).pathname], [decodeURIComponent], [path.join],
    [fs.readFile], [getMediaMime] of [vs/base/common/mime] and [extname] of
    [vs/base/common/path]; [rootPath] is the field of [Server]. *)
Context {S : Type}.
Variable pathname : string → option string.
Variable decodeURIComponent : string → string + Thrown.
Variable join : list string → string.
Variable readFile : string → string + Thrown.
Variable vsGetMediaMime : string → option string.
Variable extname : string → string.
Variable rootPath : string.

(** [getMediaMime(filePath) || {...}[extname(filePath)] || "text/plain"] *)
Definition contentType (filePath : string) : string :=
  match truthy (vsGetMediaMime filePath) with
  | Some mime => mime
  | None => default "text/plain" (mime_by_extension (extname filePath))
  end.

(** [Server.getResource] *)
Definition getResource (filePath : string) : Response + Thrown :=
  match readFile filePath with
  | inl file =>
      inl {| content := Some file; response_code := None;
             headers := [("Content-Type", contentType filePath)] |}
  | inr error => inr error
  end.

(** [MainServer.handleRequest]; [getRoot] renders the workbench page. *)
Definition MainServer_handleRequest
  (getRoot : S → IncomingMessage → S * (Response + Thrown))
  (s : S) (base requestPath : string) (request : IncomingMessage)
  : S * (Response + Thrown) :=
  if decide (base = "/") then getRoot s request
  else if decide (base = "/node_modules" ∨ base = "/out") then
    (s, getResource (join [rootPath; base; requestPath]))
  else (s, getResource (join [base; requestPath])).

(** [WebviewServer.handleRequest] *)
Definition WebviewServer_handleRequest
  (s : S) (base requestPath : string) (request : IncomingMessage)
  : S * (Response + Thrown) :=
  let webviewPath :=
    join [rootPath; "out/vs/workbench/contrib/webview/browser/pre"] in
  let base := if decide (base = "/") then "/index.html" else base in
  (s, getResource (join [webviewPath; base; requestPath])).

(** Lines 97 to 107 of the request listener, for a server whose
    [handleRequest] is given. *)
Definition handle
  (handleRequest : S → string → string → IncomingMessage
                   → S * (Response + Thrown))
  (s : S) (request : IncomingMessage) : S * (Response + Thrown) :=
  let parsedUrl_pathname := pathname (default "" (truthy (url request))) in
  match decodeURIComponent (default "/" (truthy parsedUrl_pathname)) with
  | inl fullPath =>
      let '(base, requestPath) := splitPath fullPath in
      handleRequest s base requestPath request
  | inr error => (s, inr error)
  end.

End Routes.

End Resources.

(** ** [util.ts] *)

Module Util.

Import Server.




(** [getMediaMime(filePath?)] *)
Definition getMediaMime (vsGetMediaMime : string → option string)
  (extname : string → string) (filePath : option string) : string :=
  match Resources.truthy filePath with
  | Some filePath =>
      match Resources.truthy (vsGetMediaMime filePath) with
      | Some mime => mime
      | None =>
          default "text/plain" (Resources.mime_by_extension (extname filePath))
      end
  | None => "text/plain"
  end.

(** What [isWsl] and [open] read of the host: [process.platform],
    [os.release()] and the outcome of reading "/proc/version". *)
Record Host := {
  platform : string;
  release : string;
  proc_version : string + Thrown;
}.

Section Open.

(** [s.toLowerCase().indexOf("microsoft") !== -1] *)
Variable mentions_microsoft : string → bool.

(** [isWsl]: the file is read only when the left operand of [||] is false. *)
Definition isWsl (h : Host) : bool + Thrown :=
  if bool_decide (platform h = "linux") && mentions_microsoft (release h)
  then inl true
  else match proc_version h with
       | inl text => inl (mentions_microsoft text)
       | inr error => inr error
       end.

(** [url.replace(/&/g, "^&")] *)
Fixpoint escape_ampersands (url : string) : string :=
  match url with
  | "" => ""
  | String a rest =>
      if decide (a = "&"%char)
      then String "^" (String "&" (escape_ampersands rest))
      else String a (escape_ampersands rest)
  end.

(** The argument written as two double quotes in the source. *)
Definition empty_title : string :=
  String (ascii_of_nat 34) (String (ascii_of_nat 34) "").

(** The [switch] of [open]: [command] and [args] (with the url pushed last)
    when it is left.  The case for "win32" and "wsl" has no [break] and runs
    on into [default]. *)
Definition open_command (platform url : string) : string * list string :=
  if decide (platform = "darwin") then
    let command := "open" in
    (command, [] ++ [url])
  else if decide (platform = "win32" ∨ platform = "wsl") then
    let command := if decide (platform = "wsl") then "cmd.exe" else "cmd" in
    let args := [] ++ ["/c"; "start"; empty_title; "/b"] in
    let url := escape_ampersands url in
    let command := "xdg-open" in
    (command, args ++ [url])
  else
    let command := "xdg-open" in
    (command, [] ++ [url]).

(** What happens to the spawned process first: an "error" event, or a
    "close" event with its exit code ([None] for [null]). *)
Inductive ProcessOutcome :=
  | SpawnError (error : Thrown)
  | Closed (code : option Z).

(** The text of [code] in a template literal. *)
Definition code_text (code : option Z) : string :=
  match code with
  | Some n => pretty n
  | None => "null"
  end.

(** [open(url)]: the calls of [cp.spawn] and how the promise settles. *)
Definition open (h : Host) (url : string) (outcome : ProcessOutcome)
  : list (string * list string) * (unit + Thrown) :=
  match isWsl h with
  | inl wsl =>
      let platform := if wsl then "wsl" else platform h in
      let '(command, args) := open_command platform url in
      ([(command, args)],
       match outcome with
       | SpawnError error => inr error
       | Closed code =>
           if decide (code ≠ Some 0%Z) then
             inr {| message := "Failed to open with code " +:+ code_text code;
                    code := NoCode |}
           else inl ()
       end)
  | inr error => ([], inr error)
  end.

End Open.

End Util.

(** * Vocabulary of the properties *)

(** ** Observations on a state *)

Definition is_disposed (w : World) (c : ConnId) : bool :=
  match heap w !! c with
  | Some conn => disposed conn
  | None => false
  end.

(** How often [onClose] of connection [c] has fired. *)
Definition is_close (c : ConnId) (e : Effect) : bool :=
  match e with
  | FireClose c' => bool_decide (c' = c)
  | _ => false
  end.

Definition closes (c : ConnId) (tr : list Effect) : nat :=
  length (List.filter (is_close c) tr).

(** The child process a connection owns, if it is an extension host. *)
Definition process_of (k : ConnectionKind) : option Pid :=
  match k with
  | ExtensionHostConnection pid _ _ => Some pid
  | ManagementConnection _ => None
  end.

Definition is_management (k : ConnectionKind) : bool :=
  match k with
  | ManagementConnection _ => true
  | ExtensionHostConnection _ _ _ => false
  end.

(** [c] is a live connection whose close listener deletes [(ty, token)]. *)
Definition live_at (w : World) (c : ConnId) (ty : ConnectionType)
  (token : string) : Prop :=
  ∃ conn, heap w !! c = Some conn ∧ disposed conn = false
          ∧ onClose conn = [DeleteEntry ty token].

(** Effects that spawn or kill a process or fire a close event. *)
Definition loud (e : Effect) : bool :=
  match e with
  | FireClose _ | Kill _ | Fork _ => true
  | _ => false
  end.

Definition quiet (es : list Effect) : Prop :=
  forallb (λ e, negb (loud e)) es = true.

(** The connections of [w'] are those of [w], up to the subclass state of
    some, whose process is the same. *)
Definition heap_kept (w w' : World) : Prop :=
  ∀ c, heap w' !! c = heap w !! c
       ∨ ∃ conn k, heap w !! c = Some conn
                   ∧ heap w' !! c = Some (Connection_set_kind k conn)
                   ∧ process_of k = process_of (kind conn)
                   ∧ is_management k = is_management (kind conn).

(** The three kinds of transition an event can cause. *)
Inductive Transition (w : World) (ev : Event) (w' : World) : Prop :=
  (* no connection is created or closed *)
  | T_quiet es :
      (∀ ty token, table w' ty token = table w ty token) →
      heap_kept w w' →
      next_conn w' = next_conn w →
      trace w' = trace w ++ es →
      quiet es →
      Transition w ev w'
  (* connection [c], listed under [(ty, token)], is disposed *)
  | T_dispose c conn ty token es :
      heap w !! c = Some conn →
      disposed conn = false →
      onClose conn = [DeleteEntry ty token] →
      heap w' = <[c := Connection_set_disposed true conn]> (heap w) →
      (∀ ty' token', table w' ty' token'
                     = if decide (ty = ty' ∧ token = token') then None
                       else table w ty' token') →
      next_conn w' = next_conn w →
      trace w' = trace w ++ es ++ [FireClose c] →
      (if is_management (kind conn)
       then quiet es
            ∧ (ev = ProtocolClose c
               ∨ ∃ t ms, ev = TimerFire t ∧ timers w !! t = Some (c, ms))
       else (∃ pid, process_of (kind conn) = Some pid
                    ∧ es = [Kill pid; SocketEnd (protocol conn)])
            ∧ (ev = ProcessError c ∨ ev = ProcessExit c)) →
      Transition w ev w'
  (* a non-reconnecting admission creates connection [next_conn w] *)
  | T_create request ty options buffered nodeSocket conn es :
      ev = Upgrade request (Some ty) buffered nodeSocket →
      MainServer.createProtocol request = inl options →
      MainServer.reconnection options = false →
      ty ≠ Tunnel →
      table w ty (MainServer.reconnectionToken options) = None →
      heap w' = <[next_conn w := conn]> (heap w) →
      protocol conn = next_protocol w →
      disposed conn = false →
      onClose conn = [DeleteEntry ty (MainServer.reconnectionToken options)] →
      (if decide (ty = Management)
       then kind conn = ManagementConnection None ∧ quiet es
       else kind conn = ExtensionHostConnection (next_pid w) (logService w) true
            ∧ ∃ es1, es = es1 ++ [Fork (next_pid w)] ∧ quiet es1) →
      (∀ ty' token',
         table w' ty' token'
         = if decide (ty = ty' ∧ MainServer.reconnectionToken options = token')
           then Some (next_conn w) else table w ty' token') →
      next_conn w' = S (next_conn w) →
      trace w' = trace w ++ es →
      Transition w ev w'.

(** The invariant of the reachable states. *)
Record Inv (w : World) : Prop := {
  inv_fresh : ∀ c, is_Some (heap w !! c) → c < next_conn w;
  inv_table : ∀ ty token c, table w ty token = Some c ↔ live_at w c ty token;
  inv_listener : ∀ c conn, heap w !! c = Some conn →
    ∃ token, onClose conn
             = [DeleteEntry (if is_management (kind conn) then Management
                             else ExtensionHost) token];
  inv_closes : ∀ c, closes c (trace w) = if is_disposed w c then 1 else 0;
}.

(** A world that differs from [w] in its timers and counters only. *)
Definition same_core (w w0 : World) : Prop :=
  connections w0 = connections w ∧ heap w0 = heap w
  ∧ next_conn w0 = next_conn w ∧ trace w0 = trace w
  ∧ next_pid w0 = next_pid w ∧ logService w0 = logService w.

(** ** The connection table *)

(** The table lists exactly the live connections, each under the entry its
    close listener deletes. *)
Definition entries_are_live (w : World) : Prop :=
  ∀ ty token c, table w ty token = Some c ↔ live_at w c ty token.

(** [ev] is a non-reconnecting admission for [(ty, token)] that is not
    rejected. *)
Definition admits (w : World) (ev : Event) (ty : ConnectionType)
  (token : string) : Prop :=
  ∃ request options buffered nodeSocket,
    ev = Upgrade request (Some ty) buffered nodeSocket
    ∧ MainServer.createProtocol request = inl options
    ∧ MainServer.reconnection options = false
    ∧ MainServer.reconnectionToken options = token
    ∧ ty ≠ Tunnel
    ∧ table w ty token = None.

(** The close event of [c] fires between [w] and [w']. *)
Definition closed_in (w w' : World) (c : ConnId) : Prop :=
  is_disposed w c = false ∧ is_disposed w' c = true
  ∧ closes c (trace w') = S (closes c (trace w)).

(** What one event does to the entry [(ty, token)]. *)
Definition entry_step (w : World) (ev : Event) (ty : ConnectionType)
  (token : string) : Prop :=
  match table w ty token, table (step w ev) ty token with
  | None, Some c => admits w ev ty token ∧ c = next_conn w
  | None, None => ¬ admits w ev ty token
  | Some c, None => closed_in w (step w ev) c
  | Some c, Some c' => c' = c ∧ ¬ closed_in w (step w ev) c
  end.

(** ** Concrete sessions *)

Definition reconnecting_t : MainServer.ProtocolOptions :=
  {| MainServer.reconnectionToken := "t"; MainServer.reconnection := true;
     MainServer.skipWebSocketFrames := false |}.

(** An upgrade request [?reconnectionToken=token], with
    [&reconnection=true] when [reconnect] is set. *)
Definition upgrade_request (token : string) (reconnect : bool)
  : MainServer.IncomingMessage :=
  {| MainServer.upgrade_header := Some "websocket";
     MainServer.query :=
       Some (if reconnect
             then {[ "reconnectionToken" := token; "reconnection" := "true" ]}
             else {[ "reconnectionToken" := token ]}) |}.

Definition reconnecting_e : MainServer.ProtocolOptions :=
  {| MainServer.reconnectionToken := "e"; MainServer.reconnection := true;
     MainServer.skipWebSocketFrames := false |}.

Definition hi : list byte := list_byte_of_string "hi".

Definition READY : string := "VSCODE_EXTHOST_IPC_READY".

(** A server with one management session, admitted under token "t". *)
Definition management_session : World :=
  run [Upgrade (upgrade_request "t" false) (Some Management) [] false]
    (init (LogService None)).

(** A server with one extension host session, admitted under token "e"
    while the bytes "hi" were buffered on its protocol. *)
Definition exthost_session (log : BufferArg) : World :=
  run [Upgrade (upgrade_request "e" false) (Some ExtensionHost) hi false]
    (init log).

Definition management_connection : Connection :=
  {| protocol := 0; disposed := false;
     onClose := [DeleteEntry Management "t"];
     kind := ManagementConnection None |}.

(** ** Strings *)



(** The answer of the request listener to a thrown value. *)
Definition error_response (error : Server.Thrown) : list Server.ResponseCall :=
  if decide (Server.code error = Server.StringCode "ENOENT"
             ∨ Server.code error = Server.StringCode "EISDIR")
  then [Server.writeHead 404 []; Server.end_ (Some "Not found")]
  else [Server.writeHead (match Server.code error with
                          | Server.NumberCode n => n
                          | _ => 500%Z
                          end) [];
        Server.end_ (Some (Server.message error))].

(** The answer of the request listener for the file at [filePath]. *)
Definition file_response (readFile : string → string + Server.Thrown)
  (vsGetMediaMime : string → option string) (extname : string → string)
  (filePath : string) : list Server.ResponseCall :=
  match readFile filePath with
  | inl file =>
      [Server.writeHead 200
         [("Cache-Control", "max-age=86400");
          ("Content-Type",
           Resources.contentType vsGetMediaMime extname filePath)];
       Server.end_ (Some file)]
  | inr error => error_response error
  end.

(** The decoded path of a request, or the value thrown by
    [decodeURIComponent]. *)
Definition decoded (pathname : string → option string)
  (decodeURIComponent : string → string + Server.Thrown)
  (request : Server.IncomingMessage) : string + Server.Thrown :=
  decodeURIComponent
    (default "/" (Resources.truthy
                    (pathname (default "" (Resources.truthy
                                             (Server.url request)))))).

(** The file a webview request is answered from: what [join] makes of the
    webview directory, the base and the request path.  The two parts of the
    path are passed on as they are. *)
Definition webview_file (join : list string → string) (rootPath : string)
  (fullPath : string) : string :=
  join [join [rootPath; "out/vs/workbench/contrib/webview/browser/pre"];
        (if decide ((Resources.splitPath fullPath).1 = "/") then "/index.html"
         else (Resources.splitPath fullPath).1);
        (Resources.splitPath fullPath).2].

(** The file a request to the main server is answered from, when its base
    is not "/". *)
Definition main_file (join : list string → string) (rootPath : string)
  (fullPath : string) : string :=
  if decide ((Resources.splitPath fullPath).1 = "/node_modules"
             ∨ (Resources.splitPath fullPath).1 = "/out")
  then join [rootPath; (Resources.splitPath fullPath).1;
             (Resources.splitPath fullPath).2]
  else join [(Resources.splitPath fullPath).1;
             (Resources.splitPath fullPath).2].

(** ** A concrete host for the resources *)

(** A file system with one file, "/srv/out/a.css". *)
Definition one_file (filePath : string) : string + Server.Thrown :=
  if decide (filePath = "/srv/out/a.css") then inl "a { }"
  else inr {| Server.message := "ENOENT: no such file or directory";
              Server.code := Server.StringCode "ENOENT" |}.

Definition concat_segments (segments : list string) : string :=
  foldr String.append "" segments.

Definition last_four (filePath : string) : string :=
  String.substring (String.length filePath - 4) 4 filePath.

Definition get (path : string) : Server.IncomingMessage :=
  {| Server.method := "GET"; Server.url := Some path |}.

(** ** Concrete hosts for [open] *)

Definition release_of_wsl : string := "4.4.0-19041-Microsoft".

Definition is_release_of_wsl (text : string) : bool :=
  bool_decide (text = release_of_wsl).

Definition no_proc_version : Server.Thrown :=
  {| Server.message := "ENOENT: no such file or directory";
     Server.code := Server.StringCode "ENOENT" |}.

Definition wsl_host : Util.Host :=
  {| Util.platform := "linux"; Util.release := release_of_wsl;
     Util.proc_version := inr no_proc_version |}.

Definition mac_host : Util.Host :=
  {| Util.platform := "darwin"; Util.release := "19.6.0";
     Util.proc_version := inr no_proc_version |}.

(** ** Effects of one event *)

(** How often an effect occurs in a trace. *)
Definition occurrences (e : Effect) (tr : list Effect) : nat :=
  length (List.filter (λ x, bool_decide (x = e)) tr).

(** An acknowledgement without a debug port (or another effect). *)
Definition ack_ok (e : Effect) : bool :=
  match e with
  | SendMessage _ (AckDebugPort _) => false
  | _ => true
  end.

Definition is_fork (e : Effect) : bool :=
  match e with
  | Fork _ => true
  | _ => false
  end.

(** Effects that neither fork a process nor acknowledge with a debug
    port. *)
Definition calm (es : list Effect) : Prop :=
  forallb (λ e, ack_ok e && negb (is_fork e)) es = true.

(** [w'] comes from [w] by calm effects, without forking a process and
    without arming a timer. *)
Definition calm_from (w w' : World) : Prop :=
  (∃ es, trace w' = trace w ++ es ∧ calm es)
  ∧ next_pid w' = next_pid w
  ∧ timers w' ⊆ timers w
  ∧ next_timer w' = next_timer w.

(** Effects none of which is an exception leaving an event callback. *)
Definition is_uncaught (e : Effect) : bool :=
  match e with
  | Uncaught _ => true
  | _ => false
  end.

Definition caught (es : list Effect) : Prop :=
  forallb (λ e, negb (is_uncaught e)) es = true.

(** The invariant of the armed timers: each is a grace timer, armed for
    a management connection among the connection objects created so far
    (live or disposed). *)
Definition timers_ok (w : World) : Prop :=
  ∀ t c ms, timers w !! t = Some (c, ms) →
    ms = 60000%Z ∧ t < next_timer w
    ∧ ∃ conn, heap w !! c = Some conn ∧ is_management (kind conn) = true.

(** Connection [c] owns process [pid], and [d] tells whether it is
    disposed. *)
Definition owns (w : World) (c : ConnId) (pid : Pid) (d : bool) : Prop :=
  ∃ conn, heap w !! c = Some conn ∧ process_of (kind conn) = Some pid
          ∧ disposed conn = d.

(** The invariant of the child processes. *)
Record processes_ok (w : World) : Prop := {
  owned_once : ∀ c pid d, owns w c pid d →
    (pid < next_pid w)%nat
    ∧ occurrences (Fork pid) (trace w) = 1
    ∧ occurrences (Kill pid) (trace w) = (if d then 1 else 0);
  one_owner : ∀ c c' pid d d',
    owns w c pid d → owns w c' pid d' → c = c';
  unused : ∀ pid, (next_pid w ≤ pid)%nat →
    occurrences (Fork pid) (trace w) = 0
    ∧ occurrences (Kill pid) (trace w) = 0;
  all_owned : ∀ pid, (pid < next_pid w)%nat → ∃ c d, owns w c pid d;
}.

(** * Properties *)

Example base64_hi : base64 (list_byte_of_string "hi") = "aGk=".
Proof. reflexivity. Qed.

Example base64_Many : base64 (list_byte_of_string "Many") = "TWFueQ==".
Proof. reflexivity. Qed.

(** ** The connection table under the primitive updates *)

Section TableLemmas.

Implicit Types (w : World) (ty : ConnectionType) (token : string).

Lemma table_emit es w ty token : table (emit es w) ty token = table w ty token.
Proof. reflexivity. Qed.

Lemma table_ensure_map w ty ty' token :
  table (MainServer.ensure_map ty w) ty' token = table w ty' token.
Proof.
  unfold MainServer.ensure_map. case_decide as H; [done|].
  unfold table; simpl. destruct (decide (ty = ty')) as [<-|Hne].
  - rewrite lookup_insert_eq. apply eq_None_not_Some in H. by rewrite H.
  - by rewrite lookup_insert_ne.
Qed.

Lemma ensure_map_is_Some w ty :
  is_Some (connections (MainServer.ensure_map ty w) !! ty).
Proof.
  unfold MainServer.ensure_map. case_decide as H; [done|].
  simpl. rewrite lookup_insert_eq. by eexists.
Qed.

Lemma table_set w ty token c ty' token' :
  is_Some (connections w !! ty) →
  table (set_connections (alter <[token := c]> ty) w) ty' token'
  = if decide (ty = ty' ∧ token = token') then Some c
    else table w ty' token'.
Proof.
  intros [m Hm]. unfold table; simpl.
  destruct (decide (ty = ty')) as [<-|Hne].
  - rewrite lookup_alter_eq, Hm. simpl.
    destruct (decide (token = token')) as [<-|Hne].
    + rewrite lookup_insert_eq. by rewrite decide_True.
    + rewrite lookup_insert_ne by done. rewrite decide_False; [done|].
      by intros [_ ?].
  - rewrite lookup_alter_ne by done. rewrite decide_False; [done|].
    by intros [? _].
Qed.

Lemma table_delete w ty token ty' token' :
  table (set_connections (alter (delete token) ty) w) ty' token'
  = if decide (ty = ty' ∧ token = token') then None
    else table w ty' token'.
Proof.
  unfold table; simpl.
  destruct (decide (ty = ty')) as [<-|Hne].
  - rewrite lookup_alter_eq. destruct (connections w !! ty) as [m|]; simpl.
    + destruct (decide (token = token')) as [<-|Hne].
      * rewrite lookup_delete_eq. by rewrite decide_True.
      * rewrite lookup_delete_ne by done. rewrite decide_False; [done|].
        by intros [_ ?].
    + by case_decide.
  - rewrite lookup_alter_ne by done. rewrite decide_False; [done|].
    by intros [? _].
Qed.

End TableLemmas.

(** ** Rejected and tunnelled admissions *)

Section Admission.

Import MainServer.

Implicit Types (w : World) (ty : ConnectionType) (p : ProtocolId)
  (options : ProtocolOptions).

Lemma ensure_map_id w ty token :
  is_Some (table w ty token) → ensure_map ty w = w.
Proof.
  intros [c Hc]. unfold ensure_map. case_decide as H; [done|].
  unfold table in Hc. destruct (connections w !! ty); [|done].
  exfalso. apply H. by eexists.
Qed.

(** C1: an admission for [Management] or [ExtensionHost] that reconnects
    with a token the table does not hold fails with
    [UnrecognizedReconnectionToken], and one that does not reconnect with a
    token the table holds fails with [DuplicateReconnectionToken].  Either
    way no call is made, no [Connection] and no timer changes, and the
    table is left as it was: every [(type, token)] lookup answers as
    before.  The state after the attempt is that of [ensure_map], which
    holds the (empty) token map of the type, and is the state before the
    attempt in the duplicate case. *)
Theorem connect_rejects_token ty p options buffered nodeSocket w :
  ty ≠ Tunnel →
  (reconnection options = true
   ∧ table w ty (reconnectionToken options) = None)
  ∨ (reconnection options = false
     ∧ is_Some (table w ty (reconnectionToken options))) →
  (connect (Some ty) p options buffered nodeSocket w).2
  = Some (if reconnection options then UnrecognizedReconnectionToken
          else DuplicateReconnectionToken)
  ∧ (connect (Some ty) p options buffered nodeSocket w).1 = ensure_map ty w
  ∧ (∀ ty' token', table (ensure_map ty w) ty' token' = table w ty' token')
  ∧ heap (ensure_map ty w) = heap w
  ∧ timers (ensure_map ty w) = timers w
  ∧ trace (ensure_map ty w) = trace w
  ∧ (reconnection options = false → ensure_map ty w = w).
Proof.
  intros Hty Hcase.
  assert (Hframe : heap (ensure_map ty w) = heap w
                   ∧ timers (ensure_map ty w) = timers w
                   ∧ trace (ensure_map ty w) = trace w).
  { unfold ensure_map. by case_decide. }
  destruct Hframe as (Hh & Ht & Htr).
  assert (Hres :
    connect (Some ty) p options buffered nodeSocket w
    = (ensure_map ty w,
       Some (if reconnection options then UnrecognizedReconnectionToken
             else DuplicateReconnectionToken))).
  { destruct Hcase as [[Hre Hnone]|[Hre Hsome]].
    - assert (Hhas : bool_decide (is_Some (table (ensure_map ty w) ty
                                   (reconnectionToken options))) = false).
      { apply bool_decide_eq_false. rewrite table_ensure_map, Hnone.
        by intros [? ?]. }
      destruct ty; [| |done]; simpl; rewrite Hre, Hhas; reflexivity.
    - assert (Hhas : bool_decide (is_Some (table (ensure_map ty w) ty
                                   (reconnectionToken options))) = true).
      { apply bool_decide_eq_true. by rewrite table_ensure_map. }
      destruct ty; [| |done]; simpl; rewrite Hre, Hhas; reflexivity. }
  rewrite Hres. simpl. repeat split; try done.
  - intros. apply table_ensure_map.
  - intros Hre. destruct Hcase as [[Hre' _]|[_ Hsome]]; [congruence|].
    by eapply ensure_map_id.
Qed.

Lemma connect_rejects_token_witness :
  (connect (Some Management) 0 reconnecting_t [] false
     (init (LogService None))).2
  = Some UnrecognizedReconnectionToken.
Proof.
  refine (proj1 (connect_rejects_token Management 0 reconnecting_t [] false
                   (init (LogService None)) _ _)).
  - discriminate.
  - left. split; reflexivity.
Defined.

(** C9: an admission for [Tunnel] calls [protocol.tunnel()] and nothing
    else: it creates no [Connection], leaves [connections] as it is, and
    every later [(type, token)] lookup answers as if the request had never
    been made.  The same holds for the whole upgrade event. *)
Theorem connect_tunnel p options buffered nodeSocket request w :
  connect (Some Tunnel) p options buffered nodeSocket w
  = (emit [ProtocolTunnel p] w, None)
  ∧ connections (emit [ProtocolTunnel p] w) = connections w
  ∧ heap (emit [ProtocolTunnel p] w) = heap w
  ∧ next_conn (emit [ProtocolTunnel p] w) = next_conn w
  ∧ trace (emit [ProtocolTunnel p] w) = trace w ++ [ProtocolTunnel p]
  ∧ connections (step w (Upgrade request (Some Tunnel) buffered nodeSocket))
    = connections w
  ∧ heap (step w (Upgrade request (Some Tunnel) buffered nodeSocket))
    = heap w
  ∧ (∀ ty token,
       table (step w (Upgrade request (Some Tunnel) buffered nodeSocket))
         ty token
       = table w ty token).
Proof.
  repeat split; try reflexivity.
  - simpl. unfold upgrade. by destruct (createProtocol request).
  - simpl. unfold upgrade. by destruct (createProtocol request).
  - intros ty token. unfold table. simpl. unfold upgrade.
    by destruct (createProtocol request).
Qed.

End Admission.

(** ** The request listener *)

Section PlainRequests.

Import Server.

(** C10: a plain HTTP request whose method is not [GET] is answered with
    status 400 and the message "Unsupported method <method>"; the answer
    does not depend on [handle] (no URL parsing, no resource handling) and
    the server state is returned as it was. *)
Theorem non_get_rejected {S : Type}
  (handle : S → IncomingMessage → S * (Response + Thrown))
  (s : S) (request : IncomingMessage) :
  method request ≠ "GET" →
  requestListener handle s request
  = (s, [writeHead 400 [];
         end_ (Some ("Unsupported method " +:+ method request))]).
Proof.
  intros Hm. unfold requestListener. rewrite decide_True by done.
  reflexivity.
Qed.

Lemma non_get_rejected_witness :
  requestListener
    (λ (s : nat) _, (S s, inl {| content := Some "index"; response_code := None;
                                 headers := [] |}))
    7 {| method := "POST"; url := Some "/" |}
  = (7, [writeHead 400 []; end_ (Some "Unsupported method POST")]).
Proof.
  apply (non_get_rejected _ 7 {| method := "POST"; url := Some "/" |}).
  discriminate.
Defined.

End PlainRequests.

(** ** Transitions of the event loop *)

Lemma quiet_app es1 es2 : quiet es1 → quiet es2 → quiet (es1 ++ es2).
Proof. unfold quiet. rewrite forallb_app. by intros -> ->. Qed.

Lemma quiet_not_elem es e : quiet es → loud e = true → e ∉ es.
Proof.
  unfold quiet. intros Hq He Hin. rewrite forallb_forall in Hq.
  apply list_elem_of_In in Hin. apply Hq in Hin. by rewrite He in Hin.
Qed.

Lemma quiet_closes es c : quiet es → closes c es = 0.
Proof.
  unfold quiet, closes. induction es as [|e es IH]; [done|].
  simpl. intros [He Hes]%andb_prop. destruct e; simpl in *; auto; done.
Qed.

Lemma closes_app c es1 es2 : closes c (es1 ++ es2) = closes c es1 + closes c es2.
Proof. unfold closes. by rewrite List.filter_app, length_app. Qed.

Lemma closes_fire c c' : closes c [FireClose c'] = if decide (c' = c) then 1 else 0.
Proof. unfold closes. simpl. unfold bool_decide. by destruct (decide_rel eq c' c). Qed.

Section Transitions.

Import MainServer.

Implicit Types (w : World) (c : ConnId) (ev : Event).

Lemma table_same w w' ty token :
  connections w' = connections w → table w' ty token = table w ty token.
Proof. unfold table. by intros ->. Qed.

Lemma table_deleted w w' ty token ty' token' :
  connections w' = alter (delete token) ty (connections w) →
  table w' ty' token'
  = if decide (ty = ty' ∧ token = token') then None else table w ty' token'.
Proof.
  intros H. rewrite <- table_delete. unfold table. by rewrite H.
Qed.

Lemma table_inserted w w' ty token c ty' token' :
  is_Some (connections w !! ty) →
  connections w' = alter <[token := c]> ty (connections w) →
  table w' ty' token'
  = if decide (ty = ty' ∧ token = token') then Some c
    else table w ty' token'.
Proof.
  intros Hs H. rewrite <- table_set by done. unfold table. by rewrite H.
Qed.

Lemma heap_kept_same w w' : heap w' = heap w → heap_kept w w'.
Proof. intros H c. left. by rewrite H. Qed.

Lemma heap_kept_kind w w' c conn k :
  heap w !! c = Some conn →
  heap w' = <[c := Connection_set_kind k conn]> (heap w) →
  process_of k = process_of (kind conn) →
  is_management k = is_management (kind conn) →
  heap_kept w w'.
Proof.
  intros Hc H Hp Hm c'. rewrite H. destruct (decide (c = c')) as [<-|Hne].
  - right. exists conn, k. by rewrite lookup_insert_eq.
  - left. by rewrite lookup_insert_ne.
Qed.

Lemma same_core_refl w : same_core w w.
Proof. by repeat split. Qed.

Lemma quiet_nil_transition w ev w0 : same_core w w0 → Transition w ev w0.
Proof.
  intros (Hc & Hh & Hn & Ht & _). apply (T_quiet _ _ _ []).
  - intros. by apply table_same.
  - by apply heap_kept_same.
  - done.
  - by rewrite app_nil_r.
  - done.
Qed.

Lemma Management_dispose_transition w w0 c ev :
  Inv w → same_core w w0 →
  (ev = ProtocolClose c
   ∨ ∃ t ms, ev = TimerFire t ∧ timers w !! t = Some (c, ms)) →
  Transition w ev (Management.dispose c w0).
Proof.
  intros HI Hcore Hev. pose proof Hcore as (Hc & Hh & Hn & Ht & _).
  unfold Management.dispose. rewrite Hh.
  destruct (heap w !! c) as [conn|] eqn:Hconn;
    [|by apply quiet_nil_transition].
  destruct (kind conn) as [timeout|] eqn:Hk;
    [|by apply quiet_nil_transition].
  destruct (disposed conn) eqn:Hd; [by apply quiet_nil_transition|].
  pose proof (inv_listener _ HI _ _ Hconn) as [token Hl]. rewrite Hk in Hl.
  simpl in Hl.
  eapply (T_dispose _ _ _ c conn _ _
            [SendDisconnect (protocol conn);
             ProtocolDispose (protocol conn) None;
             SocketEnd (protocol conn)]); try done.
  - unfold fire_onClose. destruct timeout; simpl;
      rewrite lookup_insert_eq; simpl; rewrite Hl; simpl; by rewrite Hh.
  - intros ty' token'. apply table_deleted.
    unfold fire_onClose. destruct timeout; simpl;
      rewrite lookup_insert_eq; simpl; rewrite Hl; simpl; by rewrite Hc.
  - unfold fire_onClose. destruct timeout; simpl;
      rewrite lookup_insert_eq; simpl; rewrite Hl; simpl; done.
  - unfold fire_onClose. destruct timeout; simpl;
      rewrite lookup_insert_eq; simpl; rewrite Hl; simpl; rewrite Ht;
      by rewrite <- !app_assoc.
  - rewrite Hk. simpl. done.
Qed.

Lemma ExtensionHost_dispose_transition w c ev :
  Inv w → ev = ProcessError c ∨ ev = ProcessExit c →
  Transition w ev (ExtensionHost.dispose c w).
Proof.
  intros HI Hev. unfold ExtensionHost.dispose.
  destruct (heap w !! c) as [conn|] eqn:Hconn;
    [|by apply quiet_nil_transition, same_core_refl].
  destruct (kind conn) as [|pid buffer listening] eqn:Hk;
    [by apply quiet_nil_transition, same_core_refl|].
  destruct (disposed conn) eqn:Hd;
    [by apply quiet_nil_transition, same_core_refl|].
  pose proof (inv_listener _ HI _ _ Hconn) as [token Hl]. rewrite Hk in Hl.
  simpl in Hl.
  eapply (T_dispose _ _ _ c conn _ _ [Kill pid; SocketEnd (protocol conn)]);
    try done.
  - unfold fire_onClose. simpl.
    rewrite lookup_insert_eq; simpl; rewrite Hl; simpl; done.
  - intros ty' token'. apply table_deleted.
    unfold fire_onClose. simpl.
    rewrite lookup_insert_eq; simpl; rewrite Hl; simpl; done.
  - unfold fire_onClose. simpl.
    rewrite lookup_insert_eq; simpl; rewrite Hl; simpl; done.
  - unfold fire_onClose. simpl.
    rewrite lookup_insert_eq; simpl; rewrite Hl; simpl;
      by rewrite <- !app_assoc.
  - rewrite Hk. simpl. split; [by exists pid | done].
Qed.

Lemma onSocketClose_transition w c ev :
  Transition w ev (Management.onSocketClose c w).
Proof.
  unfold Management.onSocketClose.
  destruct (heap w !! c) as [conn|] eqn:Hconn;
    [|by apply quiet_nil_transition, same_core_refl].
  destruct (kind conn) as [timeout|] eqn:Hk;
    [|by apply quiet_nil_transition, same_core_refl].
  apply (T_quiet _ _ _ []); simpl; try done.
  - eapply heap_kept_kind; [done|reflexivity|by rewrite Hk..].
  - by rewrite app_nil_r.
Qed.

Lemma listen_transition w c message_type nodeSocket ev :
  Transition w ev
    (match ExtensionHost.listen c message_type nodeSocket w with
     | (w, Some error) => emit [Uncaught error] w
     | (w, None) => w
     end).
Proof.
  unfold ExtensionHost.listen.
  destruct (heap w !! c) as [conn|] eqn:Hconn;
    [|by apply quiet_nil_transition, same_core_refl].
  destruct (kind conn) as [|pid buffer [|]] eqn:Hk;
    try by apply quiet_nil_transition, same_core_refl.
  case_decide; [|by apply quiet_nil_transition, same_core_refl].
  unfold ExtensionHost.sendInitMessage. simpl. rewrite lookup_insert_eq.
  simpl.
  destruct (ExtensionHost.toString_base64 buffer) as [chunk|].
  - eapply (T_quiet _ _ _
              [SocketPause (protocol conn);
               ProcessSend pid
                 (ExtensionHost.initMessage chunk nodeSocket)
                 (protocol conn)]);
      simpl; try done.
    + eapply heap_kept_kind; [done|reflexivity|by rewrite Hk..].
    + by rewrite <- !app_assoc.
  - eapply (T_quiet _ _ _ [SocketPause (protocol conn); Uncaught _]);
      simpl; try done.
    + eapply heap_kept_kind; [done|reflexivity|by rewrite Hk..].
    + by rewrite <- !app_assoc.
Qed.

(** [connect] for the two persistent connection types, with the type
    kept as a variable. *)
Lemma connect_persistent ty p options buffered nodeSocket w :
  ty ≠ Tunnel →
  connect (Some ty) p options buffered nodeSocket w
  = let ok := if decide (ty = ExtensionHost) then AckEmpty else AckOk in
    let w := ensure_map ty w in
    let token := reconnectionToken options in
    let has := bool_decide (is_Some (table w ty token)) in
    if reconnection options && has then
      let w := emit [SendMessage p ok] w in
      let w := emit [ReadEntireBuffer p] w in
      let w := emit [ProtocolDispose p None] w in
      match table w ty token with
      | Some existing =>
          Connection_reconnect existing (ProtocolObject p)
            (VSBuffer buffered) nodeSocket w
      | None => (w, None)
      end
    else if reconnection options || has then
      (w, Some (if reconnection options
                then UnrecognizedReconnectionToken
                else DuplicateReconnectionToken))
    else
      let w := emit [SendMessage p ok] w in
      let '(connection, w) :=
        if decide (ty = Management) then
          let '(connection, w) := Management.new p w in
          (connection, emit [FireClientConnect p connection] w)
        else
          ExtensionHost.new p (logService w) w in
      let w := set_connections (alter <[token := connection]> ty) w in
      let w := set_heap (alter (Connection_add_listener
                                  (DeleteEntry ty token)) connection) w in
      (w, None).
Proof. intros Hty. destruct ty; [reflexivity|reflexivity|done]. Qed.

Lemma ensure_map_core ty w :
  heap (ensure_map ty w) = heap w
  ∧ next_conn (ensure_map ty w) = next_conn w
  ∧ trace (ensure_map ty w) = trace w
  ∧ next_pid (ensure_map ty w) = next_pid w
  ∧ logService (ensure_map ty w) = logService w
  ∧ timers (ensure_map ty w) = timers w
  ∧ next_protocol (ensure_map ty w) = next_protocol w
  ∧ next_timer (ensure_map ty w) = next_timer w.
Proof. unfold ensure_map. by case_decide. Qed.

Lemma upgrade_transition w request desired buffered nodeSocket :
  Inv w →
  Transition w (Upgrade request desired buffered nodeSocket)
    (upgrade request desired buffered nodeSocket w).
Proof.
  intros HI. unfold upgrade.
  destruct (createProtocol request) as [options|e] eqn:Hcp.
  2:{ apply (T_quiet _ _ _ [Uncaught e]); by try apply heap_kept_same. }
  simpl.
  destruct desired as [ty|].
  2:{ apply (T_quiet _ _ _ [ProtocolDispose (next_protocol w)
                             (Some UnrecognizedConnectionType)]);
      by try apply heap_kept_same. }
  destruct (decide (ty = Tunnel)) as [->|Hty].
  { apply (T_quiet _ _ _ [ProtocolTunnel (next_protocol w)]);
      by try apply heap_kept_same. }
  rewrite connect_persistent by done. cbv zeta.
  match goal with |- context [ensure_map ty ?w0] =>
    set (w1 := ensure_map ty w0);
    pose proof (ensure_map_core ty w0) as (Hh & Hn & Ht & Hp & Hl & _);
    pose proof (table_ensure_map w0 ty) as Htab;
    pose proof (ensure_map_is_Some w0 ty) as Hmap;
    fold w1 in Hh, Hn, Ht, Hp, Hl, Htab, Hmap
  end.
  simpl in Hh, Hn, Ht, Hp, Hl.
  change (∀ ty' token, table w1 ty' token = table w ty' token) in Htab.
  set (ok := if decide (ty = ExtensionHost) then AckEmpty else AckOk).
  set (p := next_protocol w).
  rewrite !table_emit.
  assert (Hq : ∀ es w',
            connections w' = connections w1 → heap w' = heap w →
            next_conn w' = next_conn w → trace w' = trace w ++ es →
            quiet es →
            Transition w (Upgrade request (Some ty) buffered nodeSocket) w').
  { intros es w' Hc' Hh' Hn' Ht' Hq'. apply (T_quiet _ _ _ es); try done.
    - intros. rewrite <- Htab. by apply table_same.
    - by apply heap_kept_same. }
  destruct (table w1 ty (reconnectionToken options)) as [existing|] eqn:Hex;
    [rewrite bool_decide_eq_true_2 by eauto
    |rewrite bool_decide_eq_false_2 by (by intros [? ?])];
    destruct (reconnection options) eqn:Hre; simpl.
  - unfold Connection_reconnect. simpl. rewrite Hh.
    destruct (heap w !! existing) as [conn|] eqn:Hconn; simpl.
    + destruct (kind conn) as [timeout|pid b l] eqn:Hk.
      * unfold Management.reconnect. simpl. rewrite Hh, Hconn, Hk.
        apply (Hq [SendMessage p ok; ReadEntireBuffer p;
                   ProtocolDispose p None;
                   BeginAcceptReconnection (protocol conn)
                     (ProtocolObject p) (Some (VSBuffer buffered));
                   EndAcceptReconnection (protocol conn)]);
          destruct timeout; simpl; try done;
          rewrite Ht; by rewrite <- !app_assoc.
      * unfold ExtensionHost.reconnect, ExtensionHost.sendInitMessage.
        simpl. rewrite ?Hh, ?Hconn, ?Hk. simpl. rewrite ?Hh, ?Hconn, ?Hk. simpl.
        apply (Hq [SendMessage p ok; ReadEntireBuffer p;
                   ProtocolDispose p None;
                   BeginAcceptReconnection (protocol conn)
                     (ProtocolObject p) None;
                   ProtocolDispose (protocol conn) None;
                   SocketPause (protocol conn);
                   ProcessSend pid
                     (ExtensionHost.initMessage (base64 buffered) nodeSocket)
                     (protocol conn)]);
          simpl; try done.
        rewrite Ht; by rewrite <- !app_assoc.
    + apply (Hq [SendMessage p ok; ReadEntireBuffer p;
                 ProtocolDispose p None]); simpl; try done.
      rewrite Ht; by rewrite <- !app_assoc.
  - apply (Hq [ProtocolDispose p (Some DuplicateReconnectionToken)]);
      simpl; try done. by rewrite Ht.
  - apply (Hq [ProtocolDispose p (Some UnrecognizedReconnectionToken)]);
      simpl; try done. by rewrite Ht.
  - rewrite Htab in Hex.
    case_decide as Hm.
    + subst ty. simpl.
      eapply (T_create _ _ _ request Management options buffered nodeSocket
                {| protocol := p; disposed := false;
                   onClose := [DeleteEntry Management
                                 (reconnectionToken options)];
                   kind := ManagementConnection None |}
                [SendMessage p ok; FireClientConnect p (next_conn w)]);
        try done.
      * simpl. rewrite Hn, Hh. by rewrite alter_insert_eq.
      * intros ty' token'.
        rewrite (table_inserted w1 _ Management (reconnectionToken options)
                   (next_conn w)) by (by rewrite ?Hn).
        by rewrite Htab.
      * simpl. by rewrite Hn.
      * simpl. rewrite Ht, Hn. by rewrite <- app_assoc.
    + assert (ty = ExtensionHost) as -> by (by destruct ty).
      unfold ExtensionHost.new, ExtensionHost.spawn. simpl.
      eapply (T_create _ _ _ request ExtensionHost options buffered
                nodeSocket
                {| protocol := p; disposed := false;
                   onClose := [DeleteEntry ExtensionHost
                                 (reconnectionToken options)];
                   kind := ExtensionHostConnection (next_pid w)
                             (logService w) true |}
                [SendMessage p ok; ProtocolDispose p None;
                 Fork (next_pid w)]);
        try done.
      * simpl. rewrite Hn, Hh, Hp, Hl. by rewrite alter_insert_eq.
      * simpl. split; [done|]. by exists [SendMessage p ok; ProtocolDispose p None].
      * intros ty' token'.
        rewrite (table_inserted w1 _ ExtensionHost
                   (reconnectionToken options) (next_conn w))
          by (by rewrite ?Hn).
        by rewrite Htab.
      * simpl. by rewrite Hn.
      * simpl. rewrite Ht, Hp. by rewrite <- !app_assoc.
Qed.

Lemma step_transition w ev : Inv w → Transition w ev (step w ev).
Proof.
  intros HI. destruct ev as [request desired buffered ns|c|c|t|c|c|c mt ns];
    simpl.
  - by apply upgrade_transition.
  - apply Management_dispose_transition; [done|apply same_core_refl|by left].
  - apply onSocketClose_transition.
  - destruct (timers w !! t) as [[c ms]|] eqn:Ht.
    + apply Management_dispose_transition; [done|by repeat split|].
      right. by exists t, ms.
    + by apply quiet_nil_transition, same_core_refl.
  - apply ExtensionHost_dispose_transition; [done|by left].
  - apply ExtensionHost_dispose_transition; [done|by right].
  - apply listen_transition.
Qed.

End Transitions.

(** ** The invariant holds in every reachable state *)

Section Invariant.

Implicit Types (w : World) (c : ConnId) (ev : Event).

Lemma Inv_init log : Inv (init log).
Proof.
  split.
  - intros c [? H]. cbn in H. by rewrite lookup_empty in H.
  - intros ty token c. split.
    + unfold table, init. cbn [connections]. by rewrite lookup_empty.
    + intros (conn & H & _). cbn in H. by rewrite lookup_empty in H.
  - intros c conn H. cbn in H. by rewrite lookup_empty in H.
  - intros c. reflexivity.
Qed.

Lemma is_disposed_kept w w' c :
  heap_kept w w' → is_disposed w' c = is_disposed w c.
Proof.
  intros Hk. unfold is_disposed.
  destruct (Hk c) as [->|(conn & k & -> & -> & _)]; done.
Qed.

Lemma live_at_kept w w' c ty token :
  heap_kept w w' → live_at w' c ty token ↔ live_at w c ty token.
Proof.
  intros Hk. unfold live_at.
  destruct (Hk c) as [->|(conn & k & -> & -> & _)]; [done|].
  split; intros (conn' & [= <-] & Hd & Hl); eexists; eauto.
Qed.

Lemma Inv_transition w ev w' : Inv w → Transition w ev w' → Inv w'.
Proof.
  intros [Hfresh Htable Hlisten Hcloses] HT.
  destruct HT as
    [es Htab Hkept Hn Htr Hq
    |c conn ty token es Hc Hd Hl Hh Htab Hn Htr Hk
    |request ty options buffered ns conn es Hev Hcp Hre Hty Hnone Hh Hp Hd
       Hl Hk Htab Hn Htr].
  - split.
    + intros c Hs. rewrite Hn. apply Hfresh.
      destruct (Hkept c) as [Heq|(conn & k & Heq & _)];
        [by rewrite <- Heq | by rewrite Heq].
    + intros ty token c. rewrite Htab, Htable. symmetry.
      by apply live_at_kept.
    + intros c conn Hc.
      destruct (Hkept c) as [Heq|(conn0 & k & Hc0 & Hc' & _ & Hm)].
      * rewrite Heq in Hc. eauto.
      * rewrite Hc' in Hc. injection Hc as <-. simpl. rewrite Hm. eauto.
    + intros c. rewrite Htr, closes_app, (quiet_closes es) by done.
      rewrite Nat.add_0_r, Hcloses. by rewrite (is_disposed_kept w w').
  - assert (Hes : ∀ c', closes c' es = 0).
    { intros c'. destruct (is_management (kind conn)).
      - apply quiet_closes. by destruct Hk.
      - by destruct Hk as [(pid & _ & ->) _]. }
    assert (Hlive : table w ty token = Some c).
    { apply Htable. by exists conn. }
    split.
    + intros c0 Hs. rewrite Hn. apply Hfresh. rewrite Hh in Hs.
      destruct (decide (c = c0)) as [<-|Hne].
      * by rewrite Hc.
      * by rewrite lookup_insert_ne in Hs.
    + intros ty' token' c0. rewrite Htab. unfold live_at. rewrite Hh.
      destruct (decide (c = c0)) as [<-|Hne].
      * rewrite lookup_insert_eq. case_decide as Heq.
        -- split; [done|]. by intros (? & [= <-] & ? & _).
        -- split.
           ++ intros (conn' & Hc' & Hd' & Hl')%Htable.
              rewrite Hc in Hc'. injection Hc' as <-.
              rewrite Hl in Hl'. injection Hl' as <- <-.
              by destruct Heq.
           ++ by intros (? & [= <-] & ? & _).
      * rewrite lookup_insert_ne by done. case_decide as Heq.
        -- destruct Heq as [<- <-]. split; [done|].
           intros Hl0. apply Htable in Hl0. congruence.
        -- apply Htable.
    + intros c0 conn0. rewrite Hh.
      destruct (decide (c = c0)) as [<-|Hne].
      * rewrite lookup_insert_eq. intros [= <-]. simpl. eauto.
      * rewrite lookup_insert_ne by done. eauto.
    + intros c0. rewrite Htr, !closes_app, Hes, closes_fire, Hcloses.
      unfold is_disposed. rewrite Hh.
      destruct (decide (c = c0)) as [<-|Hne].
      * rewrite lookup_insert_eq, Hc, Hd. done.
      * rewrite lookup_insert_ne by done. lia.
  - set (token := MainServer.reconnectionToken options) in *.
    assert (Hes : ∀ c', closes c' es = 0).
    { intros c'. case_decide.
      - apply quiet_closes. by destruct Hk.
      - destruct Hk as [_ (es1 & -> & Hq)].
        by rewrite closes_app, (quiet_closes es1). }
    assert (Hnew : heap w !! next_conn w = None).
    { apply eq_None_not_Some. intros Hs%Hfresh. lia. }
    split.
    + intros c0 Hs. rewrite Hn. rewrite Hh in Hs.
      destruct (decide (next_conn w = c0)) as [<-|Hne]; [lia|].
      rewrite lookup_insert_ne in Hs by done. apply Hfresh in Hs. lia.
    + intros ty' token' c0. rewrite Htab. unfold live_at. rewrite Hh.
      destruct (decide (next_conn w = c0)) as [<-|Hne].
      * rewrite lookup_insert_eq. destruct (decide (ty = ty' ∧ token = token')) as [Heq|Heq].
        -- destruct Heq as [<- <-]. split; [|done]. intros _.
           by exists conn.
        -- split.
           ++ intros (conn' & Hc' & _)%Htable. congruence.
           ++ intros (? & [= <-] & _ & Hl'). rewrite Hl in Hl'.
              injection Hl' as <- <-. by destruct Heq.
      * rewrite lookup_insert_ne by done. destruct (decide (ty = ty' ∧ token = token')) as [Heq|Heq].
        -- destruct Heq as [<- <-]. split; [congruence|].
           intros Hl0. apply Htable in Hl0. congruence.
        -- apply Htable.
    + intros c0 conn0. rewrite Hh.
      destruct (decide (next_conn w = c0)) as [<-|Hne].
      * rewrite lookup_insert_eq. intros [= <-]. exists token.
        rewrite Hl. case_decide as Hm.
        -- destruct Hk as [-> _]. by subst.
        -- destruct Hk as [-> _]. simpl. by destruct ty.
      * rewrite lookup_insert_ne by done. eauto.
    + intros c0. rewrite Htr, !closes_app, Hes, Hcloses.
      unfold is_disposed. rewrite Hh.
      destruct (decide (next_conn w = c0)) as [<-|Hne].
      * rewrite lookup_insert_eq, Hnew, Hd. done.
      * rewrite lookup_insert_ne by done. lia.
Qed.

Lemma Inv_step w ev : Inv w → Inv (step w ev).
Proof. intros HI. eapply Inv_transition; [done|by apply step_transition]. Qed.

Lemma Inv_run evs w : Inv w → Inv (run evs w).
Proof.
  revert w. induction evs as [|ev evs IH]; intros w HI; [done|].
  simpl. apply IH. by apply Inv_step.
Qed.

Lemma Inv_reachable log evs : Inv (run evs (init log)).
Proof. apply Inv_run, Inv_init. Qed.

End Invariant.

(** ** The connection table *)

Section ConnectionTable.

Import MainServer.

Implicit Types (w : World) (c : ConnId) (ev : Event).

Lemma admission_inserts w ev ty token :
  admits w ev ty token → table (step w ev) ty token = Some (next_conn w).
Proof.
  intros (request & options & buffered & ns & -> & Hcp & Hre & <- & Hty
          & Hnone).
  unfold step, upgrade. rewrite Hcp. unfold alloc_protocol.
  rewrite connect_persistent by done. cbv zeta.
  match goal with |- context [ensure_map ty ?w0] =>
    set (w1 := ensure_map ty w0);
    pose proof (ensure_map_core ty w0) as (Hh & Hn & _);
    pose proof (table_ensure_map w0 ty) as Htab;
    pose proof (ensure_map_is_Some w0 ty) as Hmap;
    fold w1 in Hh, Hn, Htab, Hmap
  end.
  simpl in Hh, Hn.
  change (∀ ty' token, table w1 ty' token = table w ty' token) in Htab.
  rewrite Htab, Hnone, Hre.
  rewrite bool_decide_eq_false_2 by (by intros [? ?]). simpl.
  case_decide; simpl.
  - rewrite (table_inserted w1 _ ty (reconnectionToken options)
               (next_conn w)); [by rewrite decide_True|done|].
    simpl. by rewrite Hn.
  - rewrite (table_inserted w1 _ ty (reconnectionToken options)
               (next_conn w)); [by rewrite decide_True|done|].
    simpl. by rewrite Hn.
Qed.

Lemma entry_step_holds w ev ty token : Inv w → entry_step w ev ty token.
Proof.
  intros HI. pose proof (Inv_step w ev HI) as HI'.
  pose proof (admission_inserts w ev ty token) as Hadm.
  unfold entry_step.
  destruct (step_transition w ev HI) as
    [es Htab Hkept Hn Htr Hq
    |c conn ty0 token0 es Hc Hd Hl Hh Htab Hn Htr Hk
    |request ty0 options buffered ns conn es Hev Hcp Hre Hty Hnone Hh Hp Hd
       Hl Hk Htab Hn Htr].
  - rewrite Htab. destruct (table w ty token) as [c|] eqn:Hent.
    + split; [done|]. intros (Hd & Hd' & _).
      rewrite (is_disposed_kept w (step w ev)) in Hd' by done. congruence.
    + intros Ha. specialize (Hadm Ha). rewrite Htab, Hent in Hadm. done.
  - assert (Hlive : table w ty0 token0 = Some c).
    { apply (inv_table _ HI). by exists conn. }
    assert (Hclosed : closed_in w (step w ev) c).
    { unfold closed_in, is_disposed. rewrite Hh, Hc, lookup_insert_eq.
      repeat split; [done|].
      rewrite Htr, !closes_app, closes_fire, decide_True by done.
      assert (closes c es = 0) as ->; [|lia].
      destruct (is_management (kind conn)).
      - apply quiet_closes. by destruct Hk.
      - by destruct Hk as [(pid & _ & ->) _]. }
    rewrite Htab. case_decide as Heq.
    + destruct Heq as [<- <-]. by rewrite Hlive.
    + destruct (table w ty token) as [c0|] eqn:Hent.
      * split; [done|]. intros (Hd0 & Hd0' & _).
        unfold is_disposed in Hd0, Hd0'. rewrite Hh in Hd0'.
        destruct (decide (c = c0)) as [<-|Hne].
        -- apply Heq. apply (inv_table _ HI) in Hent.
           destruct Hent as (conn' & Hc' & _ & Hl').
           rewrite Hc in Hc'. injection Hc' as <-. rewrite Hl in Hl'.
           by injection Hl' as <- <-.
        -- rewrite lookup_insert_ne in Hd0' by done. congruence.
      * intros Ha. specialize (Hadm Ha). rewrite Htab in Hadm.
        rewrite decide_False in Hadm by done. congruence.
  - rewrite Htab.
    destruct (decide (ty0 = ty ∧ reconnectionToken options = token))
      as [Heq|Heq].
    + destruct Heq as [<- <-]. rewrite Hnone. split; [|done].
      by exists request, options, buffered, ns.
    + destruct (table w ty token) as [c0|] eqn:Hent.
      * split; [done|]. intros (Hd0 & Hd0' & _).
        unfold is_disposed in Hd0, Hd0'. rewrite Hh in Hd0'.
        apply (inv_table _ HI) in Hent. destruct Hent as (conn' & Hc' & _).
        assert (c0 < next_conn w) by (apply (inv_fresh _ HI); eauto).
        rewrite lookup_insert_ne in Hd0' by lia. congruence.
      * intros Ha. specialize (Hadm Ha). rewrite Htab in Hadm.
        rewrite decide_False in Hadm by done. congruence.
Qed.

(** C2: in every reachable state the table lists exactly the live
    connections, each under the one [(type, token)] entry that its close
    listener deletes, so a token names at most one live connection of a
    type.  An event turns an absent entry into a present one exactly when
    it is a non-reconnecting admission for that entry that is not rejected
    (the new connection is the entry); a present entry stays, with the same
    connection, unless the close event of its connection fires during the
    event, and then it is removed. *)
Theorem connection_table_invariant log evs :
  entries_are_live (run evs (init log))
  ∧ ∀ ev ty token, entry_step (run evs (init log)) ev ty token.
Proof.
  pose proof (Inv_reachable log evs) as HI. split.
  - intros ty token c. apply (inv_table _ HI).
  - intros. by apply entry_step_holds.
Qed.

End ConnectionTable.

(** ** Disposal *)

Section Disposal.

Implicit Types (w : World) (c : ConnId) (ev : Event).

Lemma run_snoc evs ev w : run (evs ++ [ev]) w = step (run evs w) ev.
Proof. unfold run. by rewrite foldl_app. Qed.

Lemma run_listeners_heap ls w :
  heap (foldl (λ w l, run_listener l w) w ls) = heap w.
Proof.
  revert w. induction ls as [|[ty token] ls IH]; intros w; [done|].
  simpl. by rewrite IH.
Qed.

Lemma fire_onClose_heap c w : heap (fire_onClose c w) = heap w.
Proof.
  unfold fire_onClose. destruct (heap w !! c); [|done].
  by rewrite run_listeners_heap.
Qed.

Lemma dispose_disposed w c :
  is_disposed w c = true → Connection_dispose c w = w.
Proof.
  unfold is_disposed, Connection_dispose, Management.dispose,
    ExtensionHost.dispose.
  destruct (heap w !! c) as [conn|] eqn:Hc; [|done]. simpl.
  intros Hd. destruct (kind conn) eqn:Hk; by rewrite ?Hc, ?Hk, ?Hd.
Qed.

Lemma dispose_sets w c :
  is_Some (heap w !! c) → is_disposed (Connection_dispose c w) c = true.
Proof.
  intros [conn Hc].
  unfold is_disposed, Connection_dispose, Management.dispose,
    ExtensionHost.dispose.
  rewrite Hc. simpl.
  destruct (kind conn) as [timeout|pid b l] eqn:Hk; rewrite ?Hc, ?Hk;
    (destruct (disposed conn) eqn:Hd; [by rewrite Hc|]);
    rewrite fire_onClose_heap; simpl.
  - destruct timeout; simpl; by rewrite lookup_insert_eq.
  - by rewrite lookup_insert_eq.
Qed.

Lemma dispose_twice w c :
  Connection_dispose c (Connection_dispose c w) = Connection_dispose c w.
Proof.
  destruct (heap w !! c) as [conn|] eqn:Hc.
  - apply dispose_disposed, dispose_sets. by eexists.
  - assert (Connection_dispose c w = w) as Hid.
    { unfold Connection_dispose. by rewrite Hc. }
    by rewrite !Hid.
Qed.

Lemma disposed_stays w ev c :
  Inv w → is_disposed w c = true → is_disposed (step w ev) c = true.
Proof.
  intros HI Hd.
  destruct (step_transition w ev HI) as
    [es Htab Hkept Hn Htr Hq
    |c0 conn ty0 token0 es Hc Hd0 Hl Hh Htab Hn Htr Hk
    |request ty0 options buffered ns conn es Hev Hcp Hre Hty Hnone Hh Hp Hd0
       Hl Hk Htab Hn Htr].
  - by rewrite (is_disposed_kept w (step w ev)).
  - unfold is_disposed in *. rewrite Hh.
    destruct (decide (c0 = c)) as [->|Hne].
    + by rewrite lookup_insert_eq.
    + by rewrite lookup_insert_ne.
  - unfold is_disposed in *. rewrite Hh.
    destruct (heap w !! c) as [conn0|] eqn:Hc; [|done].
    assert (c < next_conn w) by (apply (inv_fresh _ HI); eauto).
    rewrite lookup_insert_ne by lia. by rewrite Hc.
Qed.

Lemma trigger_on_disposed w c :
  is_disposed w c = true →
  trace (step w (ProtocolClose c)) = trace w
  ∧ trace (step w (ProcessError c)) = trace w
  ∧ trace (step w (ProcessExit c)) = trace w
  ∧ ∀ t ms, timers w !! t = Some (c, ms) →
            trace (step w (TimerFire t)) = trace w.
Proof.
  unfold is_disposed. intros Hd.
  destruct (heap w !! c) as [conn|] eqn:Hc; [|done].
  repeat split.
  - simpl. unfold Management.dispose. rewrite Hc, Hd. by destruct (kind conn).
  - simpl. unfold ExtensionHost.dispose. rewrite Hc, Hd.
    by destruct (kind conn).
  - simpl. unfold ExtensionHost.dispose. rewrite Hc, Hd.
    by destruct (kind conn).
  - intros t ms Ht. simpl. rewrite Ht. unfold Management.dispose. simpl.
    rewrite Hc, Hd. by destruct (kind conn).
Qed.

(** C6: for both kinds of connection and every sequence of events (timer
    expiries, socket closes, protocol closes, process exits and errors,
    admissions), [onClose] of a connection has fired exactly once if the
    connection is disposed and never otherwise; a disposed connection
    stays disposed; [dispose] on a disposed connection changes nothing at
    all, so any number of calls equals the first, and each of the events
    that call [dispose] adds no call to the trace once the connection is
    disposed. *)
Theorem dispose_idempotent log evs c :
  closes c (trace (run evs (init log)))
  = (if is_disposed (run evs (init log)) c then 1 else 0)
  ∧ (∀ ev, is_disposed (run evs (init log)) c = true →
           is_disposed (step (run evs (init log)) ev) c = true
           ∧ closes c (trace (step (run evs (init log)) ev)) = 1)
  ∧ (∀ w, is_disposed w c = true → Connection_dispose c w = w)
  ∧ (∀ w, is_Some (heap w !! c) →
          is_disposed (Connection_dispose c w) c = true)
  ∧ (∀ w n, Nat.iter (S n) (Connection_dispose c) w
            = Connection_dispose c w)
  ∧ (∀ w, is_disposed w c = true →
          trace (step w (ProtocolClose c)) = trace w
          ∧ trace (step w (ProcessError c)) = trace w
          ∧ trace (step w (ProcessExit c)) = trace w
          ∧ ∀ t ms, timers w !! t = Some (c, ms) →
                    trace (step w (TimerFire t)) = trace w).
Proof.
  pose proof (Inv_reachable log evs) as HI.
  split; [apply (inv_closes _ HI)|].
  split.
  { intros ev Hd. split; [by apply disposed_stays|].
    pose proof (Inv_reachable log (evs ++ [ev])) as HI'.
    rewrite run_snoc in HI'. rewrite (inv_closes _ HI').
    by rewrite disposed_stays. }
  split; [intros w; apply dispose_disposed|].
  split; [intros w; apply dispose_sets|].
  split; [|intros w; apply trigger_on_disposed].
  intros w n. induction n as [|n IH]; [done|].
  change (Nat.iter (S (S n)) (Connection_dispose c) w)
    with (Connection_dispose c (Nat.iter (S n) (Connection_dispose c) w)).
  rewrite IH. apply dispose_twice.
Qed.

End Disposal.

(** ** The extension host process *)

Section ProcessLifetime.

Import MainServer.

Implicit Types (w : World) (c : ConnId) (ev : Event).

Lemma transport_close_ignored w c conn :
  heap w !! c = Some conn → is_management (kind conn) = false →
  step w (SocketClose c) = w ∧ step w (ProtocolClose c) = w.
Proof.
  intros Hc Hm. simpl. unfold Management.onSocketClose, Management.dispose.
  rewrite Hc. by destruct (kind conn).
Qed.

Lemma ExtensionHost_reconnect_keeps w c socket buffer nodeSocket :
  heap (ExtensionHost.reconnect c socket buffer nodeSocket w).1 = heap w
  ∧ next_pid (ExtensionHost.reconnect c socket buffer nodeSocket w).1
    = next_pid w.
Proof.
  unfold ExtensionHost.reconnect, ExtensionHost.sendInitMessage.
  destruct (heap w !! c) as [conn|] eqn:Hc; [|done].
  destruct (kind conn) eqn:Hk; [done|]. simpl. rewrite Hc, Hk.
  by destruct (ExtensionHost.toString_base64 buffer).
Qed.

(** C4: in every reachable state and for every event, a process is forked
    only by a non-reconnecting [ExtensionHost] admission (so never by a
    reconnect), a process is killed only when the event is the [error] or
    [exit] event of the process of a connection that is not yet disposed
    (the only callers of [dispose]), and every connection keeps the process
    it had.  [reconnect] itself leaves all connection objects as they are,
    and a socket-close or protocol-close event on an extension host
    connection changes nothing. *)
Theorem extension_host_process_lifetime log evs ev :
  (∃ es,
     trace (step (run evs (init log)) ev)
     = trace (run evs (init log)) ++ es
     ∧ (∀ pid, Kill pid ∈ es →
          ∃ c conn, (ev = ProcessError c ∨ ev = ProcessExit c)
                    ∧ heap (run evs (init log)) !! c = Some conn
                    ∧ disposed conn = false
                    ∧ process_of (kind conn) = Some pid)
     ∧ (∀ pid, Fork pid ∈ es →
          pid = next_pid (run evs (init log))
          ∧ ∃ request options buffered nodeSocket,
              ev = Upgrade request (Some ExtensionHost) buffered nodeSocket
              ∧ createProtocol request = inl options
              ∧ reconnection options = false))
  ∧ (∀ c conn, heap (run evs (init log)) !! c = Some conn →
       ∃ conn', heap (step (run evs (init log)) ev) !! c = Some conn'
                ∧ process_of (kind conn') = process_of (kind conn))
  ∧ (∀ w c socket buffer nodeSocket,
       heap (ExtensionHost.reconnect c socket buffer nodeSocket w).1
       = heap w)
  ∧ (∀ w c conn, heap w !! c = Some conn →
       is_management (kind conn) = false →
       step w (SocketClose c) = w ∧ step w (ProtocolClose c) = w).
Proof.
  pose proof (Inv_reachable log evs) as HI.
  set (w := run evs (init log)) in *.
  split; [|split; [|split]].
  - destruct (step_transition w ev HI) as
      [es Htab Hkept Hn Htr Hq
      |c conn ty0 token0 es Hc Hd Hl Hh Htab Hn Htr Hk
      |request ty0 options buffered ns conn es Hev Hcp Hre Hty Hnone Hh Hp
         Hd Hl Hk Htab Hn Htr].
    + exists es. split; [done|]. split; intros pid Hin;
        by apply (quiet_not_elem es) in Hin.
    + exists (es ++ [FireClose c]). split; [done|].
      split; intros pid [Hin|Hin]%elem_of_app;
        try (by apply list_elem_of_singleton in Hin).
      * destruct (is_management (kind conn)).
        -- destruct Hk as [Hq _]. by apply (quiet_not_elem es) in Hin.
        -- destruct Hk as [(pid0 & Hp & ->) Hev].
           apply elem_of_cons in Hin as [[= ->]|Hin];
             [|by apply list_elem_of_singleton in Hin].
           by exists c, conn.
      * destruct (is_management (kind conn)).
        -- destruct Hk as [Hq _]. by apply (quiet_not_elem es) in Hin.
        -- destruct Hk as [(pid0 & Hp & ->) Hev].
           apply elem_of_cons in Hin as [[=]|Hin];
             by apply list_elem_of_singleton in Hin.
    + exists es. split; [done|]. split; intros pid Hin.
      * case_decide.
        -- destruct Hk as [_ Hq]. by apply (quiet_not_elem es) in Hin.
        -- destruct Hk as [_ (es1 & -> & Hq)].
           apply elem_of_app in Hin as [Hin|Hin];
             [by apply (quiet_not_elem es1) in Hin
             |by apply list_elem_of_singleton in Hin].
      * case_decide.
        -- destruct Hk as [_ Hq]. by apply (quiet_not_elem es) in Hin.
        -- destruct Hk as [_ (es1 & -> & Hq)].
           apply elem_of_app in Hin as [Hin|Hin];
             [by apply (quiet_not_elem es1) in Hin|].
           apply list_elem_of_singleton in Hin. injection Hin as ->.
           split; [done|]. assert (ty0 = ExtensionHost) as ->
             by (by destruct ty0).
           by exists request, options, buffered, ns.
  - intros c conn Hc.
    destruct (step_transition w ev HI) as
      [es Htab Hkept Hn Htr Hq
      |c0 conn0 ty0 token0 es Hc0 Hd Hl Hh Htab Hn Htr Hk
      |request ty0 options buffered ns conn0 es Hev Hcp Hre Hty Hnone Hh Hp
         Hd Hl Hk Htab Hn Htr].
    + destruct (Hkept c) as [Heq|(conn1 & k & Hc1 & Hc' & Hpr & _)].
      * exists conn. by rewrite Heq.
      * rewrite Hc in Hc1. injection Hc1 as <-. eexists. split; [done|].
        done.
    + rewrite Hh. destruct (decide (c0 = c)) as [->|Hne].
      * rewrite lookup_insert_eq. rewrite Hc in Hc0. injection Hc0 as <-.
        by eexists.
      * rewrite lookup_insert_ne by done. by exists conn.
    + rewrite Hh. assert (c < next_conn w) by (apply (inv_fresh _ HI); eauto).
      rewrite lookup_insert_ne by lia. by exists conn.
  - intros. apply ExtensionHost_reconnect_keeps.
  - intros w0 c conn. apply transport_close_ignored.
Qed.

End ProcessLifetime.

(** ** The management connection *)

Section ManagementStateMachine.

Implicit Types (w : World) (c : ConnId) (ev : Event).

Lemma run_listeners_frame ls w :
  trace (foldl (λ w l, run_listener l w) w ls) = trace w
  ∧ timers (foldl (λ w l, run_listener l w) w ls) = timers w.
Proof.
  revert w. induction ls as [|[ty token] ls IH]; intros w; [done|].
  simpl. by destruct (IH (set_connections (alter (delete token) ty) w))
    as [-> ->].
Qed.

Lemma fire_onClose_frame c w :
  is_Some (heap w !! c) →
  trace (fire_onClose c w) = trace w ++ [FireClose c]
  ∧ timers (fire_onClose c w) = timers w.
Proof.
  intros [conn Hc]. unfold fire_onClose. rewrite Hc.
  by destruct (run_listeners_frame (onClose conn) (emit [FireClose c] w))
    as [-> ->].
Qed.

Lemma Management_dispose_live w c conn timeout :
  heap w !! c = Some conn →
  kind conn = ManagementConnection timeout →
  disposed conn = false →
  trace (Management.dispose c w)
  = trace w ++ [SendDisconnect (protocol conn);
                ProtocolDispose (protocol conn) None;
                SocketEnd (protocol conn); FireClose c]
  ∧ timers (Management.dispose c w) = timers (clearTimeout timeout w)
  ∧ is_disposed (Management.dispose c w) c = true.
Proof.
  intros Hc Hk Hd. unfold Management.dispose, is_disposed.
  rewrite Hc, Hk, Hd. rewrite fire_onClose_heap.
  match goal with |- context [fire_onClose c ?w0] =>
    assert (Hs : is_Some (heap w0 !! c))
      by (simpl; rewrite lookup_insert_eq; by eexists);
    destruct (fire_onClose_frame c w0 Hs) as [-> ->]
  end.
  simpl. rewrite lookup_insert_eq.
  destruct timeout; simpl; by rewrite <- app_assoc.
Qed.

(** C5: a management connection that is not disposed behaves as follows.
    A socket-closed event arms a timer of 60 000 ms that calls [dispose]
    and stores its handle in [timeout], with no call on any collaborator.
    When an armed timer of the connection fires, or when the protocol
    fires [onClose], the connection disposes at once: it sends the
    disconnect notice, disposes the protocol, ends the socket and fires
    [onClose], in this order.  [reconnect] clears the timer held in
    [timeout] and calls [beginAcceptReconnection(socket, buffer)] and
    [endAcceptReconnection()] on the protocol; after a socket-closed event
    it therefore cancels the timer that event armed. *)
Theorem management_state_machine w c conn timeout :
  heap w !! c = Some conn →
  kind conn = ManagementConnection timeout →
  disposed conn = false →
  (timers (step w (SocketClose c))
   = <[next_timer w := (c, 60000%Z)]> (timers w)
   ∧ heap (step w (SocketClose c))
     = <[c := Connection_set_kind
                (ManagementConnection (Some (next_timer w))) conn]> (heap w)
   ∧ trace (step w (SocketClose c)) = trace w)
  ∧ (∀ t ms, timers w !! t = Some (c, ms) →
       trace (step w (TimerFire t))
       = trace w ++ [SendDisconnect (protocol conn);
                     ProtocolDispose (protocol conn) None;
                     SocketEnd (protocol conn); FireClose c]
       ∧ is_disposed (step w (TimerFire t)) c = true)
  ∧ (∀ socket buffer,
       timers (Management.reconnect c socket buffer w)
       = timers (clearTimeout timeout w)
       ∧ trace (Management.reconnect c socket buffer w)
         = trace w ++ [BeginAcceptReconnection (protocol conn) socket
                         (Some buffer);
                       EndAcceptReconnection (protocol conn)]
       ∧ heap (Management.reconnect c socket buffer w) = heap w)
  ∧ (∀ socket buffer,
       timers (Management.reconnect c socket buffer (step w (SocketClose c)))
       = delete (next_timer w) (timers w))
  ∧ (trace (step w (ProtocolClose c))
     = trace w ++ [SendDisconnect (protocol conn);
                   ProtocolDispose (protocol conn) None;
                   SocketEnd (protocol conn); FireClose c]
     ∧ is_disposed (step w (ProtocolClose c)) c = true).
Proof.
  intros Hc Hk Hd. split; [|split; [|split; [|split]]].
  - simpl. unfold Management.onSocketClose. by rewrite Hc, Hk.
  - intros t ms Ht. simpl. rewrite Ht.
    destruct (Management_dispose_live (set_timers (delete t) w) c conn
                timeout Hc Hk Hd) as (Htr & _ & Hdis).
    done.
  - intros socket buffer. unfold Management.reconnect. rewrite Hc, Hk.
    by destruct timeout.
  - intros socket buffer. simpl.
    unfold Management.onSocketClose, Management.reconnect.
    rewrite Hc, Hk. simpl. rewrite lookup_insert_eq. simpl.
    by rewrite delete_insert_eq.
  - simpl.
    destruct (Management_dispose_live w c conn timeout Hc Hk Hd)
      as (Htr & _ & Hdis).
    done.
Qed.

End ManagementStateMachine.

(** ** Concrete sessions *)

Section Sessions.

Import MainServer.

Lemma management_state_machine_witness :
  timers (step management_session (SocketClose 0))
  = <[next_timer management_session := (0, 60000%Z)]>
      (timers management_session)
  ∧ trace (step management_session (ProtocolClose 0))
    = trace management_session
      ++ [SendDisconnect 0; ProtocolDispose 0 None; SocketEnd 0;
          FireClose 0].
Proof.
  pose proof (management_state_machine management_session 0
                management_connection None
                ltac:(vm_compute; reflexivity) eq_refl eq_refl)
    as (H1 & _ & _ & _ & H2).
  split; [apply H1|apply H2].
Defined.

Lemma dispose_idempotent_witness :
  closes 0 (trace (run [Upgrade (upgrade_request "t" false)
                          (Some Management) [] false;
                        SocketClose 0; ProtocolClose 0; TimerFire 0;
                        SocketClose 0; TimerFire 1; ProtocolClose 0]
                     (init (LogService None))))
  = 1.
Proof.
  exact (proj1 (dispose_idempotent (LogService None)
                  [Upgrade (upgrade_request "t" false)
                     (Some Management) [] false;
                   SocketClose 0; ProtocolClose 0; TimerFire 0;
                   SocketClose 0; TimerFire 1; ProtocolClose 0] 0)).
Defined.

Lemma connection_table_invariant_witness :
  entries_are_live management_session.
Proof.
  exact (proj1 (connection_table_invariant (LogService None)
                  [Upgrade (upgrade_request "t" false)
                     (Some Management) [] false])).
Defined.

Lemma extension_host_process_lifetime_witness :
  step (exthost_session (LogService None)) (SocketClose 0)
  = exthost_session (LogService None)
  ∧ step (exthost_session (LogService None)) (ProtocolClose 0)
    = exthost_session (LogService None).
Proof.
  refine (proj2 (proj2 (proj2
            (extension_host_process_lifetime (LogService None) [] (TimerFire 0))))
            (exthost_session (LogService None)) 0
            {| protocol := 0; disposed := false;
               onClose := [DeleteEntry ExtensionHost "e"];
               kind := ExtensionHostConnection 0 (LogService None) true |}
            _ _).
  - vm_compute. reflexivity.
  - reflexivity.
Defined.

(** C3 (the code at the failing input): a reconnection for the token of
    the management session acknowledges on the new protocol (protocol 1),
    reads its buffer and disposes it, and then calls [reconnect] on the
    existing connection with the [Protocol] object itself in the socket
    position; no raw socket is passed.  The table and the connection
    objects are unchanged. *)
Lemma connect_reconnect_passes_protocol :
  trace (step management_session
           (Upgrade (upgrade_request "t" true) (Some Management) hi false))
  = trace management_session
    ++ [SendMessage 1 AckOk; ReadEntireBuffer 1; ProtocolDispose 1 None;
        BeginAcceptReconnection 0 (ProtocolObject 1) (Some (VSBuffer hi));
        EndAcceptReconnection 0]
  ∧ (∀ s b, BeginAcceptReconnection 0 (RawSocket s) b
            ∉ trace (step management_session
                       (Upgrade (upgrade_request "t" true)
                          (Some Management) hi false)))
  ∧ connections (step management_session
                   (Upgrade (upgrade_request "t" true) (Some Management)
                      hi false))
    = connections management_session
  ∧ heap (step management_session
            (Upgrade (upgrade_request "t" true) (Some Management) hi false))
    = heap management_session.
Proof.
  split; [by vm_compute|]. split; [|split; by vm_compute].
  intros s b Hin.
  assert (Htr : trace (step management_session
                         (Upgrade (upgrade_request "t" true)
                            (Some Management) hi false))
                = [SendMessage 0 AckOk; FireClientConnect 0 0;
                   SendMessage 1 AckOk; ReadEntireBuffer 1;
                   ProtocolDispose 1 None;
                   BeginAcceptReconnection 0 (ProtocolObject 1)
                     (Some (VSBuffer hi));
                   EndAcceptReconnection 0]) by (by vm_compute).
  rewrite Htr in Hin.
  repeat (apply elem_of_cons in Hin as [Hin|Hin]; [discriminate|]).
  by apply elem_of_nil in Hin.
Qed.

(** C7 (the code at the failing input): two socket-closed events in a row
    leave two timers armed for the same connection; the reconnect that
    follows cancels only the one held in [timeout]; the other one fires
    later and disposes the reconnected connection. *)
Lemma grace_timer_leak :
  timers (run [SocketClose 0; SocketClose 0] management_session)
  = {[ 0 := (0, 60000%Z); 1 := (0, 60000%Z) ]}
  ∧ timers (run [SocketClose 0; SocketClose 0;
                 Upgrade (upgrade_request "t" true) (Some Management) []
                   false]
              management_session)
    = {[ 0 := (0, 60000%Z) ]}
  ∧ is_disposed (run [SocketClose 0; SocketClose 0;
                      Upgrade (upgrade_request "t" true) (Some Management)
                        [] false;
                      TimerFire 0]
                   management_session) 0
    = true
  ∧ table (run [SocketClose 0; SocketClose 0;
                Upgrade (upgrade_request "t" true) (Some Management)
                  [] false;
                TimerFire 0]
             management_session) Management "t"
    = None.
Proof. repeat split; by vm_compute. Qed.

(** C8 (the code at the failing input): [connect] builds the extension
    host connection with the log service in the [buffer] position and
    never reads the bytes buffered on the protocol.  When the child
    reports ready, the listener is removed and the socket paused, and then
    the evaluation of [initialDataChunk] fails: no initialization message
    is sent. *)
Lemma ready_sends_no_init_message :
  trace (run [ProcessMessage 0 READY false]
           (exthost_session (LogService None)))
  = [SendMessage 0 AckEmpty; ProtocolDispose 0 None; Fork 0;
     SocketPause 0;
     Uncaught (TypeError "Cannot read property 'toString' of undefined")]
  ∧ (∀ m h, ProcessSend 0 m h
            ∉ trace (run [ProcessMessage 0 READY false;
                          ProcessMessage 0 READY false]
                       (exthost_session (LogService None)))).
Proof.
  split; [by vm_compute|]. intros m h Hin.
  assert (Htr : trace (run [ProcessMessage 0 READY false;
                            ProcessMessage 0 READY false]
                         (exthost_session (LogService None)))
                = [SendMessage 0 AckEmpty; ProtocolDispose 0 None; Fork 0;
                   SocketPause 0;
                   Uncaught (TypeError
                     "Cannot read property 'toString' of undefined")])
    by (by vm_compute).
  rewrite Htr in Hin.
  repeat (apply elem_of_cons in Hin as [Hin|Hin]; [discriminate|]).
  by apply elem_of_nil in Hin.
Qed.

End Sessions.

(** ** What the ready listener does with a buffer, and what [connect] passes *)

Section ReadyListener.

Import MainServer.

(** With a [VSBuffer] captured, the first ready message pauses the socket
    and sends one initialization message carrying the base64 text of the
    bytes; the listener is gone afterwards. *)
Lemma listen_ready_sends_once w c conn pid bytes nodeSocket :
  heap w !! c = Some conn →
  kind conn = ExtensionHostConnection pid (VSBuffer bytes) true →
  (ExtensionHost.listen c READY nodeSocket w).2 = None
  ∧ trace (ExtensionHost.listen c READY nodeSocket w).1
    = trace w ++ [SocketPause (protocol conn);
                  ProcessSend pid
                    (ExtensionHost.initMessage (base64 bytes) nodeSocket)
                    (protocol conn)]
  ∧ ExtensionHost.listen c READY nodeSocket
      (ExtensionHost.listen c READY nodeSocket w).1
    = ((ExtensionHost.listen c READY nodeSocket w).1, None).
Proof.
  intros Hc Hk.
  unfold ExtensionHost.listen, ExtensionHost.sendInitMessage.
  rewrite Hc, Hk. simpl. rewrite lookup_insert_eq. simpl.
  rewrite lookup_insert_eq. simpl. by rewrite <- app_assoc.
Qed.

(** A non-reconnecting admission does not depend on the bytes buffered on
    the protocol: they are read on the reconnection path only. *)
Lemma admission_ignores_buffered request options desired b b' nodeSocket w :
  createProtocol request = inl options →
  reconnection options = false →
  step w (Upgrade request desired b nodeSocket)
  = step w (Upgrade request desired b' nodeSocket).
Proof.
  intros Hcp Hre. simpl. unfold upgrade. rewrite Hcp. simpl.
  destruct desired as [[| |]|]; simpl; by rewrite ?Hre.
Qed.

(** A reconnection for a token the table holds: the call made on the
    existing connection, in general. *)
Lemma connect_reconnects ty p options buffered nodeSocket w existing :
  ty ≠ Tunnel →
  reconnection options = true →
  table w ty (reconnectionToken options) = Some existing →
  connect (Some ty) p options buffered nodeSocket w
  = Connection_reconnect existing (ProtocolObject p) (VSBuffer buffered)
      nodeSocket
      (emit [ProtocolDispose p None]
         (emit [ReadEntireBuffer p]
            (emit [SendMessage p (if decide (ty = ExtensionHost)
                                  then AckEmpty else AckOk)] w))).
Proof.
  intros Hty Hre Hex. rewrite connect_persistent by done. cbv zeta.
  rewrite (ensure_map_id w ty (reconnectionToken options)) by eauto.
  rewrite !table_emit, Hex, Hre.
  by rewrite bool_decide_eq_true_2 by eauto.
Qed.

End ReadyListener.

(** * Further properties of the two files and of [util.ts] *)

(** ** Splitting the request path *)

Section SplitPath.

Import Resources.

Lemma span_non_slash_app s :
  s = (span_non_slash s).1 +:+ (span_non_slash s).2.
Proof.
  induction s as [|a s IH]; [done|]. simpl.
  case_decide; [done|]. destruct (span_non_slash s) as [x y]. simpl in *.
  by rewrite IH at 1.
Qed.

(** The first part of [span_non_slash] does not end with a slash. *)
Lemma drop_trailing_slash_span s :
  drop_trailing_slash (span_non_slash s).1 = (span_non_slash s).1.
Proof.
  induction s as [|a s IH]; [done|]. simpl.
  case_decide as Ha; [done|]. destruct (span_non_slash s) as [x y].
  simpl in *. destruct x; [by rewrite decide_False|by rewrite IH].
Qed.

Lemma span_non_slash_no_slash s i :
  String.get i (span_non_slash s).1 ≠ Some "/"%char.
Proof.
  revert i. induction s as [|a s IH]; intros i; [by destruct i|]. simpl.
  case_decide as Ha; [by destruct i|]. destruct (span_non_slash s) as [x y].
  simpl in *. destruct i; [congruence|apply IH].
Qed.

Lemma drop_trailing_slash_cases p :
  p = drop_trailing_slash p ∨ p = drop_trailing_slash p +:+ "/".
Proof.
  induction p as [|a p IH]; [by left|]. destruct p as [|b p].
  - simpl. case_decide as Ha; [right; by subst|by left].
  - assert (Hstep : drop_trailing_slash (String a (String b p))
                    = String a (drop_trailing_slash (String b p)))
      by reflexivity.
    rewrite Hstep. destruct IH as [IH|IH]; [left|right].
    + by rewrite <- IH.
    + by rewrite IH at 1.
Qed.

(** The first group is kept as it is matched. *)
Lemma strip_first_group fullPath g1 g2 :
  match_path fullPath = Some (g1, g2) →
  strip g1 = g1 ∧ fullPath = g1 +:+ g2
  ∧ ∀ i, String.get (S i) g1 ≠ Some "/"%char.
Proof.
  unfold match_path. destruct fullPath as [|a rest].
  - simpl. intros [= <- <-]. split; [|split]; [|done|by intros []].
    unfold strip. by rewrite decide_True.
  - destruct (decide (a = "/"%char)) as [->|Ha].
    + pose proof (span_non_slash_app rest) as Happ.
      pose proof (drop_trailing_slash_span rest) as Hdrop.
      pose proof (span_non_slash_no_slash rest) as Hno.
      destruct (span_non_slash rest) as [x y]. simpl in Happ, Hdrop, Hno.
      destruct (has_line_terminator y); [done|]. intros [= <- <-].
      split; [|split]; [|by rewrite Happ at 1|done].
      unfold strip. case_decide as Hne; [|done].
      destruct x as [|b x]; [done|].
      change (drop_trailing_slash (String "/" (String b x)))
        with (String "/" (drop_trailing_slash (String b x))).
      by rewrite Hdrop.
    + pose proof (span_non_slash_app (String a rest)) as Happ.
      pose proof (drop_trailing_slash_span (String a rest)) as Hdrop.
      pose proof (span_non_slash_no_slash (String a rest)) as Hno.
      destruct (span_non_slash (String a rest)) as [x y].
      simpl in Happ, Hdrop, Hno.
      destruct (has_line_terminator y); [done|]. intros [= <- <-].
      split; [|split]; [|done|intros i; apply Hno].
      unfold strip. by case_decide.
Qed.

(** X1: when the path matches, [base] is the first group unchanged, it has
    no "/" after its first character, and [base] followed by [requestPath]
    is the path again, up to one trailing "/" that [requestPath] lost; when
    the path does not match (a line terminator after the first group), both
    parts are empty. *)
Theorem splitPath_round_trip fullPath :
  match match_path fullPath with
  | Some (g1, g2) =>
      (splitPath fullPath).1 = g1
      ∧ (∀ i, String.get (S i) (splitPath fullPath).1 ≠ Some "/"%char)
      ∧ (fullPath = (splitPath fullPath).1 +:+ (splitPath fullPath).2
         ∨ fullPath
           = (splitPath fullPath).1 +:+ (splitPath fullPath).2 +:+ "/")
  | None => splitPath fullPath = ("", "")
  end.
Proof.
  unfold splitPath.
  destruct (match_path fullPath) as [[g1 g2]|] eqn:Hm; [|done].
  destruct (strip_first_group fullPath g1 g2 Hm) as (Hs & Happ & Hno).
  simpl. rewrite Hs. repeat split; [done|].
  unfold strip. case_decide; [|by left].
  destruct (drop_trailing_slash_cases g2) as [H2|H2].
  - left. by rewrite <- H2.
  - right. rewrite Happ. by rewrite H2 at 1.
Qed.

End SplitPath.

(** ** Serving resources *)

Section ServingResources.

Import Server Resources.

Context {S : Type}.
Variable pathname : string → option string.
Variable decodeURIComponent : string → string + Thrown.
Variable join : list string → string.
Variable readFile : string → string + Thrown.
Variable vsGetMediaMime : string → option string.
Variable extname : string → string.
Variable rootPath : string.

Lemma listener_of_resource
  (handleRequest : S → string → string → IncomingMessage
                   → S * (Response + Thrown))
  (s : S) (request : IncomingMessage) fullPath filePath :
  method request = "GET" →
  decoded pathname decodeURIComponent request = inl fullPath →
  handleRequest s (splitPath fullPath).1 (splitPath fullPath).2 request
  = (s, getResource readFile vsGetMediaMime extname filePath) →
  requestListener (handle pathname decodeURIComponent handleRequest) s request
  = (s, file_response readFile vsGetMediaMime extname filePath).
Proof.
  intros Hm Hd Hh. unfold requestListener, handle.
  rewrite decide_False by (by rewrite Hm; intros ?).
  unfold decoded in Hd. rewrite Hd.
  destruct (splitPath fullPath) as [base requestPath]. simpl in Hh.
  rewrite Hh. unfold getResource, file_response, error_response.
  destruct (readFile filePath) as [file|error]; [done|].
  by case_decide.
Qed.

Lemma webview_response (s : S) request fullPath :
  method request = "GET" →
  decoded pathname decodeURIComponent request = inl fullPath →
  requestListener
    (handle pathname decodeURIComponent
       (WebviewServer_handleRequest join readFile vsGetMediaMime extname
          rootPath)) s request
  = (s, file_response readFile vsGetMediaMime extname
          (webview_file join rootPath fullPath)).
Proof.
  intros Hm Hd. by apply (listener_of_resource _ s request fullPath).
Qed.

(** X2: a [GET] on the webview server is answered from one file, the one
    that [path.join] names when given the webview directory, the base (with
    "/index.html" standing in for the base "/") and the request path, as
    they were split off the decoded path: status 200 with the file,
    [Cache-Control] and a [Content-Type] when it can be read; 404
    "Not found" when reading fails with [ENOENT] or [EISDIR]; otherwise the
    numeric code of the error, or 500, with its message.  The server state
    is not changed. *)
Theorem webview_get (s : S) request fullPath :
  method request = "GET" →
  decoded pathname decodeURIComponent request = inl fullPath →
  requestListener
    (handle pathname decodeURIComponent
       (WebviewServer_handleRequest join readFile vsGetMediaMime extname
          rootPath)) s request
  = (s, file_response readFile vsGetMediaMime extname
          (webview_file join rootPath fullPath)).
Proof. apply webview_response. Qed.

(** X3: on the main server a [GET] whose base is not "/" is answered the
    same way from one file: under [rootPath] when the base is
    "/node_modules" or "/out", and from the path as it was requested
    otherwise. *)
Theorem main_get
  (getRoot : S → IncomingMessage → S * (Response + Thrown))
  (s : S) request fullPath :
  method request = "GET" →
  decoded pathname decodeURIComponent request = inl fullPath →
  (splitPath fullPath).1 ≠ "/" →
  requestListener
    (handle pathname decodeURIComponent
       (MainServer_handleRequest join readFile vsGetMediaMime extname
          rootPath getRoot)) s request
  = (s, file_response readFile vsGetMediaMime extname (main_file join rootPath fullPath)).
Proof.
  intros Hm Hd Hb. apply (listener_of_resource _ s request fullPath);
    [done..|].
  unfold MainServer_handleRequest, main_file.
  rewrite decide_False by done. by case_decide.
Qed.

(** X4: the webview server answers a request for "/" and a request for
    "/index.html" alike. *)
Theorem webview_root_is_index (s : S) request1 request2 :
  method request1 = "GET" → method request2 = "GET" →
  decoded pathname decodeURIComponent request1 = inl "/" →
  decoded pathname decodeURIComponent request2 = inl "/index.html" →
  requestListener
    (handle pathname decodeURIComponent
       (WebviewServer_handleRequest join readFile vsGetMediaMime extname
          rootPath)) s request1
  = requestListener
      (handle pathname decodeURIComponent
         (WebviewServer_handleRequest join readFile vsGetMediaMime extname
            rootPath)) s request2.
Proof.
  intros Hm1 Hm2 Hd1 Hd2.
  rewrite (webview_response s request1 "/") by done.
  by rewrite (webview_response s request2 "/index.html") by done.
Qed.

(** X5: when [decodeURIComponent] throws on the path of a [GET] (a
    [URIError], which has no [code]), the request is answered with status
    500 and the message of the error, whatever [handleRequest] is, and
    [handleRequest] is not called. *)
Theorem malformed_path_is_500
  (handleRequest : S → string → string → IncomingMessage
                   → S * (Response + Thrown))
  (s : S) request error :
  method request = "GET" →
  decoded pathname decodeURIComponent request = inr error →
  code error = NoCode →
  requestListener (handle pathname decodeURIComponent handleRequest) s request
  = (s, [writeHead 500 []; end_ (Some (message error))]).
Proof.
  intros Hm Hd Hc. unfold requestListener, handle.
  rewrite decide_False by (by rewrite Hm; intros ?).
  unfold decoded in Hd. rewrite Hd.
  rewrite decide_False by (rewrite Hc; by intros [?|?]).
  by rewrite Hc.
Qed.

End ServingResources.

Lemma webview_get_witness :
  Server.requestListener
    (Resources.handle Some inl
       (Resources.WebviewServer_handleRequest concat_segments one_file
          (λ _, None) last_four "/srv")) () (get "/missing")
  = ((), [Server.writeHead 404 []; Server.end_ (Some "Not found")]).
Proof.
  exact (webview_get Some inl concat_segments one_file (λ _, None) last_four
           "/srv" () (get "/missing") "/missing" eq_refl eq_refl).
Defined.

Lemma main_get_witness :
  Server.requestListener
    (Resources.handle Some inl
       (Resources.MainServer_handleRequest concat_segments one_file
          (λ _, None) last_four "/srv"
          (λ s _, (s, inr (Server.HttpError "no root" 500)))))
    () (get "/out/a.css")
  = ((), [Server.writeHead 200
            [("Cache-Control", "max-age=86400"); ("Content-Type", "text/css")];
          Server.end_ (Some "a { }")]).
Proof.
  refine (main_get Some inl concat_segments one_file (λ _, None) last_four
            "/srv" _ () (get "/out/a.css") "/out/a.css" eq_refl eq_refl _).
  vm_compute. discriminate.
Defined.

Lemma webview_root_is_index_witness :
  Server.requestListener
    (Resources.handle Some inl
       (Resources.WebviewServer_handleRequest concat_segments one_file
          (λ _, None) last_four "/srv")) () (get "/")
  = Server.requestListener
      (Resources.handle Some inl
         (Resources.WebviewServer_handleRequest concat_segments one_file
            (λ _, None) last_four "/srv")) () (get "/index.html").
Proof.
  exact (webview_root_is_index Some inl concat_segments one_file (λ _, None)
           last_four "/srv" () (get "/") (get "/index.html")
           eq_refl eq_refl eq_refl eq_refl).
Defined.

Lemma malformed_path_is_500_witness :
  Server.requestListener
    (Resources.handle Some
       (λ _, inr {| Server.message := "URI malformed";
                    Server.code := Server.NoCode |})
       (Resources.WebviewServer_handleRequest concat_segments one_file
          (λ _, None) last_four "/srv")) () (get "/%")
  = ((), [Server.writeHead 500 []; Server.end_ (Some "URI malformed")]).
Proof.
  exact (malformed_path_is_500 Some
           (λ _, inr {| Server.message := "URI malformed";
                        Server.code := Server.NoCode |})
           _ () (get "/%") _ eq_refl eq_refl eq_refl).
Defined.

(** ** [util.ts] *)

Section Passwords.

Import Util.







End Passwords.


Section MediaTypes.

Import Util.

Lemma mime_by_extension_truthy ext mime :
  Resources.mime_by_extension ext = Some mime → mime ≠ "".
Proof.
  unfold Resources.mime_by_extension. repeat case_decide; by intros [= <-].
Qed.

Lemma truthy_Some s x : Resources.truthy s = Some x → s = Some x ∧ x ≠ "".
Proof. destruct s as [[|a s]|]; simpl; intros [= <-]; by split. Qed.

(** X7: [getMediaMime] never returns the empty string: it is "text/plain"
    for a missing or empty path, and for a path that neither the editor's
    table (whose empty answer counts as none) nor the four known extensions
    give a type.  For a non-empty path it is the [Content-Type] that
    [Server.getResource] sends. *)
Theorem getMediaMime_never_empty vsGetMediaMime extname filePath :
  getMediaMime vsGetMediaMime extname filePath ≠ ""
  ∧ (Resources.truthy filePath = None →
     getMediaMime vsGetMediaMime extname filePath = "text/plain")
  ∧ (∀ p, filePath = Some p →
          Resources.truthy (vsGetMediaMime p) = None →
          Resources.mime_by_extension (extname p) = None →
          getMediaMime vsGetMediaMime extname filePath = "text/plain")
  ∧ (∀ p, filePath = Some p → p ≠ "" →
          getMediaMime vsGetMediaMime extname filePath
          = Resources.contentType vsGetMediaMime extname p).
Proof.
  unfold getMediaMime, Resources.contentType. repeat split.
  - destruct (Resources.truthy filePath) as [p|]; [|done].
    destruct (Resources.truthy (vsGetMediaMime p)) as [mime|] eqn:Hvs.
    + by apply truthy_Some in Hvs as [_ ?].
    + destruct (Resources.mime_by_extension (extname p)) as [mime|] eqn:Hext;
        [|done].
      simpl. by eapply mime_by_extension_truthy.
  - by intros ->.
  - intros p -> Hvs Hext. destruct p as [|a p]; [done|]. simpl.
    by rewrite Hvs, Hext.
  - intros p -> Hp. by destruct p.
Qed.

End MediaTypes.

Lemma getMediaMime_never_empty_witness :
  Util.getMediaMime (λ _, Some "") last_four (Some "/srv/out/a.css")
  = Resources.contentType (λ _, Some "") last_four "/srv/out/a.css".
Proof.
  refine (proj2 (proj2 (proj2
            (getMediaMime_never_empty (λ _, Some "") last_four
               (Some "/srv/out/a.css")))) "/srv/out/a.css" eq_refl _).
  discriminate.
Defined.

Section OpeningUrls.

Import Server Util.

Variable mentions_microsoft : string → bool.

(** X8: once [isWsl] has answered, [open] spawns exactly one process, and
    its command is never [cmd] or [cmd.exe]: it is [open] on "darwin"
    outside WSL and [xdg-open] in every other case.  On "win32" and under
    WSL the arguments are still those prepared for [cmd], with the "&" of
    the url escaped. *)
Theorem open_spawns_xdg_open h url outcome wsl :
  isWsl mentions_microsoft h = inl wsl →
  (∃ args,
     (open mentions_microsoft h url outcome).1
     = [(if negb wsl && bool_decide (platform h = "darwin")
         then "open" else "xdg-open", args)]
     ∧ (negb wsl && bool_decide (platform h = "darwin") = true →
        args = [url]))
  ∧ (wsl = true ∨ platform h = "win32" ∨ platform h = "wsl" →
     (open mentions_microsoft h url outcome).1
     = [("xdg-open",
         ["/c"; "start"; empty_title; "/b"; escape_ampersands url])]).
Proof.
  intros Hwsl. unfold open. rewrite Hwsl. unfold open_command. split.
  - destruct wsl; simpl.
    + eexists. split; [done|done].
    + case_bool_decide as Hd.
      * rewrite decide_True by done. simpl. by eexists.
      * rewrite decide_False by done. case_decide; by eexists.
  - intros [->|Hp]; [done|]. destruct wsl; [done|].
    rewrite decide_False by (by destruct Hp as [-> | ->]).
    by rewrite decide_True.
Qed.

(** X9: [isWsl] reads "/proc/version" unless the platform is "linux" and
    the release mentions microsoft.  So on every other host where the file
    cannot be read (a platform without "/proc"), [open] fails with the
    error of the read and spawns nothing; and on a linux host whose release
    mentions microsoft the file is not consulted. *)
Theorem open_needs_proc_version h url outcome :
  (platform h = "linux" → mentions_microsoft (release h) = true →
   isWsl mentions_microsoft h = inl true)
  ∧ (∀ error,
       platform h ≠ "linux" ∨ mentions_microsoft (release h) = false →
       proc_version h = inr error →
       open mentions_microsoft h url outcome = ([], inr error)).
Proof.
  unfold open, isWsl. split.
  - intros Hp Hr. by rewrite bool_decide_eq_true_2, Hr.
  - intros error Hcase Hread.
    assert (bool_decide (platform h = "linux")
            && mentions_microsoft (release h) = false) as ->.
    { destruct Hcase as [Hp| ->].
      - by rewrite bool_decide_eq_false_2.
      - apply andb_false_r. }
    by rewrite Hread.
Qed.

(** X10: after the spawn, [open] resolves exactly when the process closes
    with exit code 0; an "error" event rejects with that error, and any
    other close (another code, or none) rejects with "Failed to open with
    code <code>". *)
Theorem open_resolves_on_zero h url outcome wsl :
  isWsl mentions_microsoft h = inl wsl →
  ((open mentions_microsoft h url outcome).2 = inl ()
   ↔ outcome = Closed (Some 0%Z))
  ∧ (∀ code, outcome = Closed code → code ≠ Some 0%Z →
       (open mentions_microsoft h url outcome).2
       = inr {| message := "Failed to open with code " +:+ code_text code;
                code := NoCode |})
  ∧ (∀ error, outcome = SpawnError error →
       (open mentions_microsoft h url outcome).2 = inr error).
Proof.
  intros Hwsl. unfold open. rewrite Hwsl.
  destruct (open_command (if wsl then "wsl" else platform h) url)
    as [command args]. simpl. repeat split.
  - destruct outcome as [error|code]; [done|]. case_decide as Hc; [done|].
    intros _. f_equal. by destruct (decide (code = Some 0%Z)).
  - intros ->. by rewrite decide_False by (by intros ?).
  - intros code -> Hc. by rewrite decide_True.
  - by intros error ->.
Qed.

End OpeningUrls.

Lemma open_spawns_xdg_open_witness :
  (Util.open is_release_of_wsl wsl_host "http://localhost:8080/?a=1&b=2"
     (Util.Closed (Some 0%Z))).1
  = [("xdg-open",
      ["/c"; "start"; Util.empty_title; "/b";
       "http://localhost:8080/?a=1^&b=2"])].
Proof.
  exact (proj2 (open_spawns_xdg_open is_release_of_wsl wsl_host
                  "http://localhost:8080/?a=1&b=2" (Util.Closed (Some 0%Z))
                  true eq_refl) (or_introl eq_refl)).
Defined.

Lemma open_needs_proc_version_witness :
  Util.open is_release_of_wsl mac_host "http://localhost:8080"
    (Util.Closed (Some 0%Z))
  = ([], inr no_proc_version).
Proof.
  refine (proj2 (open_needs_proc_version is_release_of_wsl mac_host
                   "http://localhost:8080" (Util.Closed (Some 0%Z)))
            no_proc_version (or_introl _) eq_refl).
  discriminate.
Defined.

Lemma open_resolves_on_zero_witness :
  (Util.open is_release_of_wsl wsl_host "http://localhost:8080"
     (Util.Closed (Some 0%Z))).2 = inl ()
  ∧ (Util.open is_release_of_wsl wsl_host "http://localhost:8080"
       (Util.Closed (Some 1%Z))).2
    = inr {| Server.message := "Failed to open with code 1";
             Server.code := Server.NoCode |}.
Proof.
  split.
  - exact (proj2 (proj1 (open_resolves_on_zero is_release_of_wsl wsl_host
                           "http://localhost:8080" (Util.Closed (Some 0%Z))
                           true eq_refl)) eq_refl).
  - refine (proj1 (proj2 (open_resolves_on_zero is_release_of_wsl wsl_host
                            "http://localhost:8080" (Util.Closed (Some 1%Z))
                            true eq_refl)) (Some 1%Z) eq_refl _).
    discriminate.
Defined.

(** ** What one event adds to the trace, the timers and the processes *)

Section Frames.

Import MainServer.

Implicit Types (w : World) (c : ConnId) (ev : Event).

Lemma calm_app es1 es2 : calm es1 → calm es2 → calm (es1 ++ es2).
Proof. unfold calm. rewrite forallb_app. by intros -> ->. Qed.

Lemma calm_from_intro w w' es :
  trace w' = trace w ++ es → calm es → next_pid w' = next_pid w →
  timers w' ⊆ timers w → next_timer w' = next_timer w → calm_from w w'.
Proof. intros. split; [by exists es|done]. Qed.

Lemma calm_from_refl w : calm_from w w.
Proof. apply (calm_from_intro w w []); by rewrite ?app_nil_r. Qed.

Lemma calm_from_trans w w1 w2 :
  calm_from w w1 → calm_from w1 w2 → calm_from w w2.
Proof.
  intros [(es1 & Ht1 & Hc1) (Hp1 & Hs1 & Hn1)]
         [(es2 & Ht2 & Hc2) (Hp2 & Hs2 & Hn2)].
  apply (calm_from_intro w w2 (es1 ++ es2)).
  - by rewrite Ht2, Ht1, app_assoc.
  - by apply calm_app.
  - congruence.
  - by etrans.
  - congruence.
Qed.

Lemma run_listeners_fields ls w :
  trace (foldl (λ w l, run_listener l w) w ls) = trace w
  ∧ timers (foldl (λ w l, run_listener l w) w ls) = timers w
  ∧ next_pid (foldl (λ w l, run_listener l w) w ls) = next_pid w
  ∧ next_timer (foldl (λ w l, run_listener l w) w ls) = next_timer w.
Proof.
  revert w. induction ls as [|[ty token] ls IH]; intros w; [done|].
  simpl. by destruct (IH (set_connections (alter (delete token) ty) w))
    as (-> & -> & -> & ->).
Qed.

Lemma calm_fire_onClose c w : calm_from w (fire_onClose c w).
Proof.
  unfold fire_onClose. destruct (heap w !! c) as [conn|];
    [|apply calm_from_refl].
  destruct (run_listeners_fields (onClose conn) (emit [FireClose c] w))
    as (Ht & Hs & Hp & Hn).
  by apply (calm_from_intro _ _ [FireClose c]); rewrite ?Ht, ?Hs, ?Hp, ?Hn.
Qed.

Lemma calm_clearTimeout handle w : calm_from w (clearTimeout handle w).
Proof.
  destruct handle as [t|]; [|apply calm_from_refl].
  apply (calm_from_intro _ _ []); simpl; rewrite ?app_nil_r; try done.
  apply delete_subseteq.
Qed.

Lemma calm_Management_dispose c w : calm_from w (Management.dispose c w).
Proof.
  unfold Management.dispose.
  destruct (heap w !! c) as [conn|]; [|apply calm_from_refl].
  destruct (kind conn) as [timeout|]; [|apply calm_from_refl].
  destruct (disposed conn); [apply calm_from_refl|].
  eapply calm_from_trans; [|apply calm_fire_onClose].
  eapply calm_from_trans; [apply (calm_clearTimeout timeout)|].
  by eapply (calm_from_intro _ _ [_; _; _]).
Qed.

Lemma calm_ExtensionHost_dispose c w :
  calm_from w (ExtensionHost.dispose c w).
Proof.
  unfold ExtensionHost.dispose.
  destruct (heap w !! c) as [conn|]; [|apply calm_from_refl].
  destruct (kind conn) as [|pid b l]; [apply calm_from_refl|].
  destruct (disposed conn); [apply calm_from_refl|].
  eapply calm_from_trans; [|apply calm_fire_onClose].
  by eapply (calm_from_intro _ _ [_; _]).
Qed.

Lemma calm_Connection_reconnect c socket buffer nodeSocket w :
  calm_from w (Connection_reconnect c socket buffer nodeSocket w).1.
Proof.
  unfold Connection_reconnect, Management.reconnect, ExtensionHost.reconnect,
    ExtensionHost.sendInitMessage.
  destruct (heap w !! c) as [conn|] eqn:Hc; simpl; [|apply calm_from_refl].
  destruct (kind conn) as [timeout|pid b l] eqn:Hk; simpl; rewrite ?Hc, ?Hk.
  - eapply calm_from_trans; [apply (calm_clearTimeout timeout)|].
    by eapply (calm_from_intro _ _ [_; _]).
  - simpl. rewrite ?Hc, ?Hk.
    destruct (ExtensionHost.toString_base64 buffer); simpl.
    + eapply (calm_from_intro _ _ [_; _; _; _]); simpl;
        by rewrite <- ?app_assoc.
    + eapply (calm_from_intro _ _ [_; _; _]); simpl;
        by rewrite <- ?app_assoc.
Qed.

Lemma calm_listen c message_type nodeSocket w :
  calm_from w (match ExtensionHost.listen c message_type nodeSocket w with
               | (w, Some error) => emit [Uncaught error] w
               | (w, None) => w
               end).
Proof.
  unfold ExtensionHost.listen, ExtensionHost.sendInitMessage.
  destruct (heap w !! c) as [conn|] eqn:Hc; [|apply calm_from_refl].
  destruct (kind conn) as [|pid buffer [|]] eqn:Hk; try apply calm_from_refl.
  case_decide; [|apply calm_from_refl].
  simpl. rewrite lookup_insert_eq. simpl.
  destruct (ExtensionHost.toString_base64 buffer); simpl.
  - eapply (calm_from_intro _ _ [_; _]); simpl; by rewrite <- ?app_assoc.
  - eapply (calm_from_intro _ _ [_; _]); simpl; by rewrite <- ?app_assoc.
Qed.

(** Every event is calm, or arms one grace timer, or forks one process. *)
Lemma step_frame w ev :
  calm_from w (step w ev)
  ∨ (∃ c conn timeout,
       ev = SocketClose c ∧ heap w !! c = Some conn
       ∧ kind conn = ManagementConnection timeout
       ∧ trace (step w ev) = trace w
       ∧ next_pid (step w ev) = next_pid w
       ∧ timers (step w ev) = <[next_timer w := (c, 60000%Z)]> (timers w)
       ∧ next_timer (step w ev) = S (next_timer w))
  ∨ (∃ es1,
       trace (step w ev) = trace w ++ es1 ++ [Fork (next_pid w)]
       ∧ calm es1
       ∧ next_pid (step w ev) = S (next_pid w)
       ∧ timers (step w ev) = timers w
       ∧ next_timer (step w ev) = next_timer w).
Proof.
  destruct ev as [request desired buffered ns|c|c|t|c|c|c mt ns]; simpl.
  - unfold upgrade.
    destruct (createProtocol request) as [options|e] eqn:Hcp.
    2:{ left. by eapply (calm_from_intro _ _ [Uncaught e]). }
    simpl. destruct desired as [ty|].
    2:{ left. by eapply (calm_from_intro _ _ [ProtocolDispose _ _]). }
    destruct (decide (ty = Tunnel)) as [->|Hty].
    { left. by eapply (calm_from_intro _ _ [ProtocolTunnel _]). }
    rewrite connect_persistent by done. cbv zeta.
    match goal with |- context [ensure_map ty ?w0] =>
      set (w1 := ensure_map ty w0);
      pose proof (ensure_map_core ty w0)
        as (Hh & Hn & Ht & Hp & Hl & Hti & Hnp & Hnt);
      fold w1 in Hh, Hn, Ht, Hp, Hl, Hti, Hnp, Hnt
    end.
    simpl in Hh, Hn, Ht, Hp, Hl, Hti, Hnp, Hnt.
    assert (Hw1 : calm_from w w1).
    { apply (calm_from_intro _ _ []); rewrite ?app_nil_r; try done.
      by rewrite Hti. }
    set (ok := if decide (ty = ExtensionHost) then AckEmpty else AckOk).
    assert (Hok : ∀ es, calm es →
                    calm (SendMessage (next_protocol w) ok :: es)).
    { intros es Hes. unfold calm, ok in *. simpl. by case_decide. }
    rewrite !table_emit.
    destruct (table w1 ty (reconnectionToken options)) as [existing|] eqn:Hex;
      [rewrite bool_decide_eq_true_2 by eauto
      |rewrite bool_decide_eq_false_2 by (by intros [? ?])];
      destruct (reconnection options) eqn:Hre; simpl.
    + left.
      match goal with |- context [Connection_reconnect _ _ _ _ ?w2] =>
        pose proof (calm_Connection_reconnect existing
                      (ProtocolObject (next_protocol w)) (VSBuffer buffered)
                      ns w2) as Hr;
        destruct (Connection_reconnect existing
                    (ProtocolObject (next_protocol w)) (VSBuffer buffered)
                    ns w2) as [w3 [e|]]
      end; simpl in Hr.
      * eapply calm_from_trans; [apply Hw1|].
        eapply calm_from_trans;
          [|eapply calm_from_trans; [apply Hr|]].
        -- apply (calm_from_intro _ _ [SendMessage (next_protocol w) ok;
                                       ReadEntireBuffer (next_protocol w);
                                       ProtocolDispose (next_protocol w) None]);
             simpl; rewrite <- ?app_assoc; try done.
           by apply Hok.
        -- by eapply (calm_from_intro _ _ [ProtocolDispose _ _]).
      * eapply calm_from_trans; [apply Hw1|].
        eapply calm_from_trans; [|apply Hr].
        apply (calm_from_intro _ _ [SendMessage (next_protocol w) ok;
                                    ReadEntireBuffer (next_protocol w);
                                    ProtocolDispose (next_protocol w) None]);
          simpl; rewrite <- ?app_assoc; try done.
        by apply Hok.
    + left. eapply calm_from_trans; [apply Hw1|].
      by eapply (calm_from_intro _ _ [ProtocolDispose _ _]).
    + left. eapply calm_from_trans; [apply Hw1|].
      by eapply (calm_from_intro _ _ [ProtocolDispose _ _]).
    + case_decide as Hm.
      * left. simpl. eapply calm_from_trans; [apply Hw1|].
        apply (calm_from_intro _ _ [SendMessage (next_protocol w) ok;
                                    FireClientConnect (next_protocol w)
                                      (next_conn w1)]);
          simpl; rewrite <- ?app_assoc; try done.
        by apply Hok.
      * right. right. unfold ExtensionHost.new, ExtensionHost.spawn. simpl.
        exists [SendMessage (next_protocol w) ok;
                ProtocolDispose (next_protocol w) None].
        rewrite Ht, Hp, Hti, Hnt. repeat split.
        -- by rewrite <- !app_assoc.
        -- by apply Hok.
  - left. apply calm_Management_dispose.
  - unfold Management.onSocketClose.
    destruct (heap w !! c) as [conn|] eqn:Hc; [|left; apply calm_from_refl].
    destruct (kind conn) as [timeout|] eqn:Hk; [|left; apply calm_from_refl].
    right. left. by exists c, conn, timeout.
  - left. destruct (timers w !! t) as [[c ms]|]; [|apply calm_from_refl].
    eapply calm_from_trans; [|apply calm_Management_dispose].
    apply (calm_from_intro _ _ []); simpl; rewrite ?app_nil_r; try done.
    apply delete_subseteq.
  - left. apply calm_ExtensionHost_dispose.
  - left. apply calm_ExtensionHost_dispose.
  - left. apply calm_listen.
Qed.

End Frames.

(** ** Outcomes of [connect] *)

Section ConnectOutcomes.

Import MainServer.

Implicit Types (w : World) (c : ConnId) (ev : Event).

Lemma reconnect_with_VSBuffer c socket bytes nodeSocket w :
  (Connection_reconnect c socket (VSBuffer bytes) nodeSocket w).2 = None.
Proof.
  unfold Connection_reconnect, ExtensionHost.reconnect,
    ExtensionHost.sendInitMessage.
  destruct (heap w !! c) as [conn|] eqn:Hc; simpl; [|done].
  destruct (kind conn) as [|pid b l] eqn:Hk; simpl; [done|].
  rewrite ?Hc, ?Hk. simpl. by rewrite ?Hc, ?Hk.
Qed.

Lemma connect_result ty p options buffered nodeSocket w :
  ty ≠ Tunnel →
  (connect (Some ty) p options buffered nodeSocket w).2
  = match reconnection options, table w ty (reconnectionToken options) with
    | true, None => Some UnrecognizedReconnectionToken
    | false, Some _ => Some DuplicateReconnectionToken
    | _, _ => None
    end.
Proof.
  intros Hty. rewrite connect_persistent by done. cbv zeta.
  rewrite !table_emit, !table_ensure_map.
  destruct (table w ty (reconnectionToken options)) as [existing|] eqn:Hex;
    [rewrite bool_decide_eq_true_2 by eauto
    |rewrite bool_decide_eq_false_2 by (by intros [? ?])];
    destruct (reconnection options) eqn:Hre; simpl; try done.
  - apply reconnect_with_VSBuffer.
  - case_decide; simpl; [done|].
    unfold ExtensionHost.new, ExtensionHost.spawn. done.
Qed.

(** X11: [connect] fails in exactly three situations: the handshake names
    no known connection type; a reconnection for [Management] or
    [ExtensionHost] finds no entry for the token; a first connection for one
    of them finds an entry for the token.  Every other admission succeeds:
    a tunnel, a reconnection for a token the table holds, a first
    connection for a token it does not hold. *)
Theorem connect_fails_exactly desired p options buffered nodeSocket w error :
  (connect desired p options buffered nodeSocket w).2 = Some error
  ↔ (desired = None ∧ error = UnrecognizedConnectionType)
    ∨ (∃ ty, desired = Some ty ∧ ty ≠ Tunnel
             ∧ ((reconnection options = true
                 ∧ table w ty (reconnectionToken options) = None
                 ∧ error = UnrecognizedReconnectionToken)
                ∨ (reconnection options = false
                   ∧ is_Some (table w ty (reconnectionToken options))
                   ∧ error = DuplicateReconnectionToken))).
Proof.
  destruct desired as [ty|].
  - destruct (decide (ty = Tunnel)) as [->|Hty].
    + simpl. split; [done|]. intros [[? _]|(ty & [= <-] & ? & _)]; done.
    + rewrite connect_result by done.
      destruct (reconnection options) eqn:Hre,
        (table w ty (reconnectionToken options)) as [existing|] eqn:Hex.
      all: split;
        [|intros [[? _]|(ty' & [= <-] & _
                         & [(? & ? & ?)|(? & [? ?] & ?)])]; congruence].
      * done.
      * intros [= <-]. right. exists ty. by eauto 10.
      * intros [= <-]. right. exists ty. by eauto 10.
      * done.
  - simpl. split.
    + intros [= <-]. by left.
    + intros [[_ ->]|(ty & ? & _)]; done.
Qed.

(** X12: a reconnection for the token of an extension host connection
    acknowledges with the empty object on the new protocol, reads its buffer
    and disposes it, then gives the existing protocol the object passed as
    socket, disposes that protocol, pauses its socket and sends the process
    of the connection one initialization message with the base64 text of the
    bytes that were buffered.  This does not depend on whether the process
    has reported ready; no process is forked, and the table and the
    connection objects are left as they are. *)
Theorem exthost_reconnect_redelivers p options buffered nodeSocket w c conn
    pid buffer listening :
  reconnection options = true →
  table w ExtensionHost (reconnectionToken options) = Some c →
  heap w !! c = Some conn →
  kind conn = ExtensionHostConnection pid buffer listening →
  (connect (Some ExtensionHost) p options buffered nodeSocket w).2 = None
  ∧ trace (connect (Some ExtensionHost) p options buffered nodeSocket w).1
    = trace w
      ++ [SendMessage p AckEmpty; ReadEntireBuffer p; ProtocolDispose p None;
          BeginAcceptReconnection (protocol conn) (ProtocolObject p) None;
          ProtocolDispose (protocol conn) None;
          SocketPause (protocol conn);
          ProcessSend pid
            (ExtensionHost.initMessage (base64 buffered) nodeSocket)
            (protocol conn)]
  ∧ heap (connect (Some ExtensionHost) p options buffered nodeSocket w).1
    = heap w
  ∧ connections (connect (Some ExtensionHost) p options buffered nodeSocket
                   w).1
    = connections w
  ∧ next_pid (connect (Some ExtensionHost) p options buffered nodeSocket w).1
    = next_pid w.
Proof.
  intros Hre Hex Hc Hk.
  rewrite (connect_reconnects ExtensionHost p options buffered nodeSocket w c)
    by done.
  unfold Connection_reconnect, ExtensionHost.reconnect,
    ExtensionHost.sendInitMessage.
  simpl. rewrite ?Hc. simpl. rewrite ?Hk, ?Hc, ?Hk. simpl.
  rewrite ?Hc, ?Hk. simpl. by rewrite <- !app_assoc.
Qed.

End ConnectOutcomes.

Lemma exthost_reconnect_redelivers_witness :
  trace (MainServer.connect (Some ExtensionHost) 1 reconnecting_e [] true
           (exthost_session (LogService None))).1
  = trace (exthost_session (LogService None))
    ++ [SendMessage 1 AckEmpty; ReadEntireBuffer 1; ProtocolDispose 1 None;
        BeginAcceptReconnection 0 (ProtocolObject 1) None;
        ProtocolDispose 0 None; SocketPause 0;
        ProcessSend 0 (ExtensionHost.initMessage "" true) 0].
Proof.
  refine (proj1 (proj2
            (exthost_reconnect_redelivers 1 reconnecting_e [] true
               (exthost_session (LogService None)) 0
               {| protocol := 0; disposed := false;
                  onClose := [DeleteEntry ExtensionHost "e"];
                  kind := ExtensionHostConnection 0 (LogService None) true |}
               0 (LogService None) true eq_refl _ _ eq_refl))).
  - vm_compute. reflexivity.
  - vm_compute. reflexivity.
Defined.

(** ** Timers and processes in the reachable states *)

Section TimersAndProcesses.

Import MainServer.

Implicit Types (w : World) (c : ConnId) (ev : Event).

(** A connection object stays in the heap, with its process and its class;
    once disposed it stays disposed. *)
Lemma heap_persists w ev c conn :
  Inv w → heap w !! c = Some conn →
  ∃ conn', heap (step w ev) !! c = Some conn'
           ∧ process_of (kind conn') = process_of (kind conn)
           ∧ is_management (kind conn') = is_management (kind conn)
           ∧ protocol conn' = protocol conn
           ∧ (disposed conn = true → disposed conn' = true).
Proof.
  intros HI Hc.
  destruct (step_transition w ev HI) as
    [es Htab Hkept Hn Htr Hq
    |c0 conn0 ty0 token0 es Hc0 Hd Hl Hh Htab Hn Htr Hk
    |request ty0 options buffered ns conn0 es Hev Hcp Hre Hty Hnone Hh Hp
       Hd Hl Hk Htab Hn Htr].
  - destruct (Hkept c) as [Heq|(conn1 & k & Hc1 & Hc' & Hpr & Hm)].
    + exists conn. by rewrite Heq.
    + rewrite Hc in Hc1. injection Hc1 as <-. by eexists.
  - rewrite Hh. destruct (decide (c0 = c)) as [->|Hne].
    + rewrite lookup_insert_eq. rewrite Hc in Hc0. injection Hc0 as <-.
      by eexists.
    + rewrite lookup_insert_ne by done. by exists conn.
  - rewrite Hh. assert (c < next_conn w) by (apply (inv_fresh _ HI); eauto).
    rewrite lookup_insert_ne by lia. by exists conn.
Qed.

Lemma timers_ok_step w ev : Inv w → timers_ok w → timers_ok (step w ev).
Proof.
  intros HI Hok t c ms Ht.
  assert (Hold : ∀ t c ms, timers w !! t = Some (c, ms) →
            ms = 60000%Z ∧ t < next_timer w
            ∧ ∃ conn, heap (step w ev) !! c = Some conn
                      ∧ is_management (kind conn) = true).
  { intros t' c' ms' Ht'.
    destruct (Hok t' c' ms' Ht') as (-> & Hlt & conn & Hc & Hm).
    destruct (heap_persists w ev c' conn HI Hc) as (conn' & Hc' & _ & Hm' & _).
    repeat split; [done|]. exists conn'. by rewrite Hm'. }
  destruct (step_frame w ev) as
    [[_ (_ & Hsub & Hnt)]
    |[(c0 & conn & timeout & Hev & Hc & Hk & _ & _ & Hti & Hnt)
     |(es1 & _ & _ & _ & Hti & Hnt)]].
  - rewrite Hnt. apply Hold. by eapply lookup_weaken.
  - rewrite Hti in Ht. rewrite Hnt.
    apply lookup_insert_Some in Ht as [(<- & [= <- <-])|(Hne & Ht)].
    + split; [done|]. split; [lia|].
      destruct (heap_persists w ev c0 conn HI Hc)
        as (conn' & Hc' & _ & Hm' & _).
      exists conn'. by rewrite Hm', Hk.
    + destruct (Hold t c ms Ht) as (-> & Hlt & Hconn).
      split; [done|]. split; [lia|done].
  - rewrite Hti in Ht. rewrite Hnt. by apply Hold.
Qed.

Lemma timers_ok_run evs w :
  Inv w → timers_ok w → timers_ok (run evs w).
Proof.
  revert w. induction evs as [|ev evs IH]; intros w HI Hok; [done|].
  simpl. apply IH; [by apply Inv_step|by apply timers_ok_step].
Qed.

(** X13: in every reachable state each armed timer is a grace timer of
    60 000 ms that was armed for a management connection the server has
    created, and its handle is older than the next one to be given out; no
    timer is armed for an extension host connection.  The connection of a
    timer need not be live: the socket-close handler does not look at
    [disposed], so a socket-close event arms a timer for every management
    connection that was ever created, disposed or not. *)
Theorem timers_are_grace_timers log evs :
  timers_ok (run evs (init log))
  ∧ ∀ c conn timeout,
      heap (run evs (init log)) !! c = Some conn →
      kind conn = ManagementConnection timeout →
      timers (step (run evs (init log)) (SocketClose c))
        !! next_timer (run evs (init log))
      = Some (c, 60000%Z).
Proof.
  split.
  - apply timers_ok_run; [apply Inv_init|].
    intros t c ms Ht. cbn in Ht. by rewrite lookup_empty in Ht.
  - intros c conn timeout Hc Hk. simpl. unfold Management.onSocketClose.
    rewrite Hc, Hk. simpl. by rewrite lookup_insert_eq.
Qed.

Lemma occurrences_app e es1 es2 :
  occurrences e (es1 ++ es2) = occurrences e es1 + occurrences e es2.
Proof. unfold occurrences. by rewrite List.filter_app, length_app. Qed.

Lemma occurrences_cons e x es :
  occurrences e (x :: es) = (if decide (x = e) then 1 else 0) + occurrences e es.
Proof.
  unfold occurrences. simpl. unfold bool_decide.
  by destruct (decide_rel eq x e).
Qed.

Lemma quiet_occurrences es pid :
  quiet es →
  occurrences (Fork pid) es = 0 ∧ occurrences (Kill pid) es = 0.
Proof.
  unfold quiet. induction es as [|e es IH]; [done|]. simpl.
  intros [He Hes]%andb_prop. destruct (IH Hes) as [IH1 IH2].
  rewrite !occurrences_cons, IH1, IH2.
  destruct e; simpl in He; try done; by rewrite !decide_False.
Qed.

Lemma calm_occurrences es pid : calm es → occurrences (Fork pid) es = 0.
Proof.
  unfold calm. induction es as [|e es IH]; [done|]. simpl.
  intros [[_ He]%andb_prop Hes]%andb_prop.
  rewrite occurrences_cons, (IH Hes).
  destruct e; simpl in He; try done; by rewrite !decide_False.
Qed.

(** The process counter moves exactly when a process is forked. *)
Lemma pid_step w ev es :
  trace (step w ev) = trace w ++ es →
  (next_pid (step w ev) = next_pid w ∧ ∀ pid, occurrences (Fork pid) es = 0)
  ∨ (next_pid (step w ev) = S (next_pid w)
     ∧ ∀ pid, occurrences (Fork pid) es
              = if decide (pid = next_pid w) then 1 else 0).
Proof.
  intros Htr.
  destruct (step_frame w ev) as
    [[(es' & Htr' & Hcalm) (Hp & _)]
    |[(c0 & conn & timeout & _ & _ & _ & Htr' & Hp & _)
     |(es1 & Htr' & Hcalm & Hp & _)]].
  - left. split; [done|]. intros pid. rewrite Htr in Htr'.
    apply app_inv_head in Htr' as ->. by apply calm_occurrences.
  - left. split; [done|]. intros pid. rewrite Htr in Htr'.
    rewrite <- (app_nil_r (trace w)) in Htr' at 2.
    by apply app_inv_head in Htr' as ->.
  - right. split; [done|]. intros pid. rewrite Htr in Htr'.
    apply app_inv_head in Htr' as ->.
    rewrite occurrences_app, calm_occurrences, occurrences_cons by done.
    simpl. case_decide as H1; case_decide as H2; try done.
    + injection H1 as H1. by subst.
    + by subst.
Qed.

Lemma processes_ok_step w ev :
  Inv w → processes_ok w → processes_ok (step w ev).
Proof.
  intros HI [Honce Hone Hunused Hall].
  destruct (step_transition w ev HI) as
    [es Htab Hkept Hn Htr Hq
    |c0 conn0 ty0 token0 es Hc0 Hd0 Hl Hh Htab Hn Htr Hk
    |request ty0 options buffered ns conn0 es Hev Hcp Hre Hty Hnone Hh Hp
       Hd0 Hl Hk Htab Hn Htr].
  - (* nothing created, nothing closed *)
    assert (Hes : ∀ pid, occurrences (Fork pid) es = 0
                         ∧ occurrences (Kill pid) es = 0)
      by (intros; by apply quiet_occurrences).
    assert (Hnp : next_pid (step w ev) = next_pid w).
    { destruct (pid_step w ev es Htr) as [[? _]|[_ Hf]]; [done|].
      specialize (Hf (next_pid w)). rewrite decide_True in Hf by done.
      destruct (Hes (next_pid w)). congruence. }
    assert (Hown : ∀ c pid d, owns (step w ev) c pid d ↔ owns w c pid d).
    { intros c pid d. unfold owns.
      destruct (Hkept c) as [->|(conn & k & -> & -> & Hpr & _)]; [done|].
      split; intros (conn' & [= <-] & Hp' & Hd'); eexists;
        (split; [done|]); simpl in *; by rewrite ?Hpr in *. }
    split.
    + intros c pid d Ho%Hown. destruct (Honce c pid d Ho) as (? & ? & ?).
      destruct (Hes pid) as [Hf Hk']. rewrite Hnp, Htr, !occurrences_app.
      rewrite Hf, Hk'. repeat split; [done|lia..].
    + intros c c' pid d d' Ho%Hown Ho'%Hown. by eapply Hone.
    + intros pid Hle. rewrite Hnp in Hle. destruct (Hunused pid Hle).
      destruct (Hes pid) as [Hf Hk']. rewrite Htr, !occurrences_app.
      rewrite Hf, Hk'. split; lia.
    + intros pid Hlt. rewrite Hnp in Hlt.
      destruct (Hall pid Hlt) as (c & d & Ho). exists c, d. by apply Hown.
  - (* connection c0 is disposed *)
    set (estot := es ++ [FireClose c0]) in *.
    assert (Htr' : trace (step w ev) = trace w ++ estot)
      by (by rewrite Htr).
    assert (Hes : ∀ pid,
              occurrences (Fork pid) estot = 0
              ∧ occurrences (Kill pid) estot
                = if decide (process_of (kind conn0) = Some pid)
                  then 1 else 0).
    { intros pid. unfold estot. rewrite !occurrences_app.
      destruct (kind conn0) as [timeout|pid0 b l] eqn:Hkind; simpl in Hk.
      - destruct Hk as [Hq _].
        destruct (quiet_occurrences es pid Hq) as [-> ->].
        rewrite !occurrences_cons.
        change (process_of (ManagementConnection timeout)) with (@None Pid).
        split; repeat case_decide; simplify_eq; done.
      - destruct Hk as [(pid1 & [= <-] & ->) _].
        rewrite !occurrences_cons.
        change (process_of (ExtensionHostConnection pid0 b l))
          with (Some pid0).
        split; repeat case_decide; simplify_eq; done. }
    assert (Hnp : next_pid (step w ev) = next_pid w).
    { destruct (pid_step w ev estot Htr') as [[? _]|[_ Hf]]; [done|].
      specialize (Hf (next_pid w)). rewrite decide_True in Hf by done.
      destruct (Hes (next_pid w)). congruence. }
    assert (Hown : ∀ c pid d,
              owns (step w ev) c pid d
              ↔ (c ≠ c0 ∧ owns w c pid d)
                ∨ (c = c0 ∧ d = true ∧ owns w c0 pid false)).
    { intros c pid d. unfold owns. rewrite Hh.
      destruct (decide (c0 = c)) as [<-|Hne].
      - rewrite lookup_insert_eq. split.
        + intros (conn & [= <-] & Hp' & Hd'). right. simpl in *.
          split; [done|split; [done|]]. by exists conn0.
        + intros [[? _]|(_ & -> & conn & Hc & Hp' & Hd')]; [done|].
          rewrite Hc0 in Hc. injection Hc as <-. by eexists.
      - rewrite lookup_insert_ne by done. split.
        + intros Ho. left. by split.
        + intros [[_ Ho]|[? _]]; [done|congruence]. }
    assert (Howner0 : ∀ pid, process_of (kind conn0) = Some pid →
                             owns w c0 pid false).
    { intros pid Hp'. by exists conn0. }
    split.
    + intros c pid d [[Hne Ho]|(-> & -> & Ho)]%Hown.
      * destruct (Honce c pid d Ho) as (? & ? & ?).
        destruct (Hes pid) as [Hf Hk']. rewrite Hnp, Htr', !occurrences_app.
        rewrite Hf, Hk'. rewrite decide_False.
        { repeat split; [done|lia..]. }
        intros Hp'. apply Hne. by eapply Hone; [|apply Howner0].
      * destruct (Honce c0 pid false Ho) as (? & ? & ?).
        destruct (Hes pid) as [Hf Hk']. rewrite Hnp, Htr', !occurrences_app.
        rewrite Hf, Hk'. rewrite decide_True.
        { repeat split; [done|lia..]. }
        destruct Ho as (conn & Hc & Hp' & _). rewrite Hc0 in Hc.
        by injection Hc as <-.
    + intros c c' pid d d' Ho%Hown Ho'%Hown.
      destruct Ho as [[_ Ho]|(-> & _ & Ho)],
        Ho' as [[_ Ho']|(-> & _ & Ho')]; by eapply Hone.
    + intros pid Hle. rewrite Hnp in Hle. destruct (Hunused pid Hle).
      destruct (Hes pid) as [Hf Hk']. rewrite Htr', !occurrences_app.
      rewrite Hf, Hk'. rewrite decide_False; [split; lia|].
      intros Hp'. destruct (Honce c0 pid false (Howner0 pid Hp')). lia.
    + intros pid Hlt. rewrite Hnp in Hlt.
      destruct (Hall pid Hlt) as (c & d & Ho).
      destruct (decide (c = c0)) as [->|Hne].
      * exists c0, true. apply Hown. right. split; [done|split; [done|]].
        destruct Ho as (conn & Hc & Hp' & _). rewrite Hc0 in Hc.
        injection Hc as <-. by apply Howner0.
      * exists c, d. apply Hown. by left.
  - (* a connection is created *)
    assert (Hnew : heap w !! next_conn w = None).
    { apply eq_None_not_Some. intros Hs%(inv_fresh _ HI). lia. }
    destruct (decide (ty0 = Management)) as [Hm|Hm].
    + destruct Hk as [Hkind Hq].
      assert (Hes : ∀ pid, occurrences (Fork pid) es = 0
                           ∧ occurrences (Kill pid) es = 0)
        by (intros; by apply quiet_occurrences).
      assert (Hnp : next_pid (step w ev) = next_pid w).
      { destruct (pid_step w ev es Htr) as [[? _]|[_ Hf]]; [done|].
        specialize (Hf (next_pid w)). rewrite decide_True in Hf by done.
        destruct (Hes (next_pid w)). congruence. }
      assert (Hown : ∀ c pid d, owns (step w ev) c pid d ↔ owns w c pid d).
      { intros c pid d. unfold owns. rewrite Hh.
        destruct (decide (next_conn w = c)) as [<-|Hne].
        - rewrite lookup_insert_eq, Hnew. split.
          + intros (conn & [= <-] & Hp' & _). by rewrite Hkind in Hp'.
          + by intros (? & ? & _).
        - by rewrite lookup_insert_ne. }
      split.
      * intros c pid d Ho%Hown. destruct (Honce c pid d Ho) as (? & ? & ?).
        destruct (Hes pid) as [Hf Hk']. rewrite Hnp, Htr, !occurrences_app.
        rewrite Hf, Hk'. repeat split; [done|lia..].
      * intros c c' pid d d' Ho%Hown Ho'%Hown. by eapply Hone.
      * intros pid Hle. rewrite Hnp in Hle. destruct (Hunused pid Hle).
        destruct (Hes pid) as [Hf Hk']. rewrite Htr, !occurrences_app.
        rewrite Hf, Hk'. split; lia.
      * intros pid Hlt. rewrite Hnp in Hlt.
        destruct (Hall pid Hlt) as (c & d & Ho). exists c, d. by apply Hown.
    + destruct Hk as [Hkind (es1 & -> & Hq)].
      assert (Hes : ∀ pid,
                occurrences (Fork pid) (es1 ++ [Fork (next_pid w)])
                = (if decide (pid = next_pid w) then 1 else 0)
                ∧ occurrences (Kill pid) (es1 ++ [Fork (next_pid w)]) = 0).
      { intros pid. rewrite !occurrences_app.
        destruct (quiet_occurrences es1 pid Hq) as [-> ->].
        rewrite !occurrences_cons.
        split; repeat case_decide; simplify_eq; done. }
      assert (Hnp : next_pid (step w ev) = S (next_pid w)).
      { destruct (pid_step w ev _ Htr) as [[_ Hf]|[? _]]; [|done].
        specialize (Hf (next_pid w)). destruct (Hes (next_pid w)) as [He _].
        rewrite decide_True in He by done. congruence. }
      assert (Hown : ∀ c pid d,
                owns (step w ev) c pid d
                ↔ owns w c pid d
                  ∨ (c = next_conn w ∧ pid = next_pid w ∧ d = false)).
      { intros c pid d. unfold owns. rewrite Hh.
        destruct (decide (next_conn w = c)) as [<-|Hne].
        - rewrite lookup_insert_eq, Hnew. split.
          + intros (conn & [= <-] & Hp' & Hd'). right.
            rewrite Hkind in Hp'. simpl in Hp'. injection Hp' as <-.
            by rewrite Hd0 in Hd'.
          + intros [(? & ? & _)|(_ & -> & ->)]; [done|].
            exists conn0. by rewrite Hkind.
        - rewrite lookup_insert_ne by done. split; [by left|].
          intros [?|[? _]]; [done|congruence]. }
      split.
      * intros c pid d [Ho|(-> & -> & ->)]%Hown.
        -- destruct (Honce c pid d Ho) as (? & ? & ?).
           destruct (Hes pid) as [Hf Hk']. rewrite Hnp, Htr, 2!(occurrences_app _ (trace w)).
           rewrite Hf, Hk'. rewrite decide_False by lia.
           repeat split; lia.
        -- destruct (Hunused (next_pid w)) as [? ?]; [done|].
           destruct (Hes (next_pid w)) as [Hf Hk'].
           rewrite Hnp, Htr, 2!(occurrences_app _ (trace w)), Hf, Hk'.
           rewrite decide_True by done. repeat split; lia.
      * intros c c' pid d d' Ho%Hown Ho'%Hown.
        destruct Ho as [Ho|(-> & -> & _)], Ho' as [Ho'|(-> & Hp' & _)].
        -- by eapply Hone.
        -- subst. destruct (Honce _ _ _ Ho). lia.
        -- destruct (Honce _ _ _ Ho'). lia.
        -- done.
      * intros pid Hle. rewrite Hnp in Hle.
        destruct (Hunused pid) as [? ?]; [lia|].
        destruct (Hes pid) as [Hf Hk']. rewrite Htr, 2!(occurrences_app _ (trace w)).
        rewrite Hf, Hk'. rewrite decide_False by lia. split; lia.
      * intros pid Hlt. rewrite Hnp in Hlt.
        destruct (decide (pid = next_pid w)) as [->|Hne].
        -- exists (next_conn w), false. apply Hown. by right.
        -- destruct (Hall pid) as (c & d & Ho); [lia|].
           exists c, d. apply Hown. by left.
Qed.

Lemma processes_ok_run evs w :
  Inv w → processes_ok w → processes_ok (run evs w).
Proof.
  revert w. induction evs as [|ev evs IH]; intros w HI Hok; [done|].
  simpl. apply IH; [by apply Inv_step|by apply processes_ok_step].
Qed.

Lemma processes_ok_init log : processes_ok (init log).
Proof.
  split.
  - intros c pid d (conn & Hc & _). cbn in Hc. by rewrite lookup_empty in Hc.
  - intros c c' pid d d' (conn & Hc & _). cbn in Hc.
    by rewrite lookup_empty in Hc.
  - done.
  - intros pid Hlt. cbn in Hlt. lia.
Qed.

(** X14: in every reachable state the process of an extension host
    connection has been forked exactly once, and killed exactly once if the
    connection is disposed and never otherwise; no two connections share a
    process; and no process is forked twice or killed without having been
    forked. *)
Theorem process_forked_once_killed_once log evs :
  processes_ok (run evs (init log))
  ∧ ∀ pid,
      (occurrences (Fork pid) (trace (run evs (init log))) ≤ 1)%nat
      ∧ (occurrences (Kill pid) (trace (run evs (init log)))
         ≤ occurrences (Fork pid) (trace (run evs (init log))))%nat.
Proof.
  pose proof (processes_ok_run evs (init log) (Inv_init log)
                (processes_ok_init log)) as HP.
  split; [done|]. intros pid.
  destruct (decide (pid < next_pid (run evs (init log)))%nat) as [Hlt|Hge].
  - destruct (all_owned _ HP pid Hlt) as (c & d & Ho).
    destruct (owned_once _ HP c pid d Ho) as (_ & -> & ->).
    destruct d; lia.
  - destruct (unused _ HP pid) as [-> ->]; lia.
Qed.

(** X15: no acknowledgement that the server sends in any run carries a
    debug port: [getDebugPort] answers [undefined], so an extension host
    admission is acknowledged with the empty object and a management
    admission with the object whose type is "ok". *)
Theorem acknowledgements_without_debug_port log evs :
  forallb ack_ok (trace (run evs (init log))) = true.
Proof.
  induction evs as [|ev evs IH] using rev_ind; [done|].
  rewrite run_snoc.
  assert (Hcalm : ∀ es, calm es → forallb ack_ok es = true).
  { intros es. unfold calm. induction es as [|e es IHes]; [done|]. simpl.
    intros [[-> _]%andb_prop Hes]%andb_prop. by apply IHes. }
  destruct (step_frame (run evs (init log)) ev)
    as [[(es & -> & Hes) _]
       |[(c & conn & timeout & _ & _ & _ & -> & _)
        |(es1 & -> & Hes & _)]].
  - by rewrite forallb_app, IH, Hcalm.
  - done.
  - by rewrite !forallb_app, IH, Hcalm.
Qed.

End TimersAndProcesses.

(** ** Errors of an upgrade *)

Section UpgradeErrors.

Import MainServer.

Implicit Types (w : World) (c : ConnId) (ev : Event).

Lemma caught_Connection_reconnect c socket buffer nodeSocket w :
  ∃ es, trace (Connection_reconnect c socket buffer nodeSocket w).1
        = trace w ++ es ∧ caught es.
Proof.
  unfold Connection_reconnect, Management.reconnect, ExtensionHost.reconnect,
    ExtensionHost.sendInitMessage.
  destruct (heap w !! c) as [conn|] eqn:Hc; simpl;
    [|exists []; by rewrite app_nil_r].
  destruct (kind conn) as [timeout|pid b l] eqn:Hk; simpl; rewrite ?Hc, ?Hk.
  - eexists [_; _]. split; [by destruct timeout|done].
  - simpl. rewrite ?Hc, ?Hk.
    destruct (ExtensionHost.toString_base64 buffer); simpl.
    + eexists [_; _; _; _]. split; [by rewrite <- ?app_assoc|done].
    + eexists [_; _; _]. split; [by rewrite <- ?app_assoc|done].
Qed.

Lemma caught_connect desired p options buffered nodeSocket w :
  ∃ es, trace (connect desired p options buffered nodeSocket w).1
        = trace w ++ es ∧ caught es.
Proof.
  destruct desired as [ty|]; [|exists []; by rewrite app_nil_r].
  destruct (decide (ty = Tunnel)) as [->|Hty]; [by eexists [_]|].
  rewrite connect_persistent by done. cbv zeta.
  match goal with |- context [ensure_map ty ?w0] =>
    set (w1 := ensure_map ty w0);
    pose proof (ensure_map_core ty w0) as (_ & _ & Ht & _);
    fold w1 in Ht
  end.
  rewrite !table_emit.
  destruct (table w1 ty (reconnectionToken options)) as [existing|] eqn:Hex;
    [rewrite bool_decide_eq_true_2 by eauto
    |rewrite bool_decide_eq_false_2 by (by intros [? ?])];
    destruct (reconnection options) eqn:Hre; simpl.
  - match goal with |- context [Connection_reconnect _ _ _ _ ?w2] =>
      destruct (caught_Connection_reconnect existing (ProtocolObject p)
                  (VSBuffer buffered) nodeSocket w2) as (es & -> & Hes)
    end.
    simpl. rewrite Ht, <- !app_assoc. simpl.
    eexists (_ :: _ :: _ :: es). split; [done|]. by case_decide.
  - exists []. by rewrite app_nil_r.
  - exists []. by rewrite app_nil_r.
  - case_decide as Hm; simpl.
    + rewrite Ht, <- !app_assoc. eexists [_; _]. split; [done|].
      by case_decide.
    + unfold ExtensionHost.new, ExtensionHost.spawn. simpl.
      rewrite Ht, <- !app_assoc. eexists [_; _; _]. split; [done|].
      by case_decide.
Qed.

(** X16: [createProtocol] is called outside the [try] of the upgrade
    listener, so an exception it throws leaves the listener, and then
    nothing else happens: no protocol is made and nothing is done with the
    socket.  A request whose upgrade header is not "websocket" makes it
    throw "HTTP/1.1 400 Bad Request".  Once [createProtocol] has returned,
    nothing escapes: when [connect] fails, its error is the last thing the
    listener does, disposing the new protocol with that error. *)
Theorem upgrade_errors request desired buffered nodeSocket w :
  ∃ es,
    trace (step w (Upgrade request desired buffered nodeSocket))
    = trace w ++ es
    ∧ (upgrade_header request ≠ Some "websocket" →
       createProtocol request = inr (Error "HTTP/1.1 400 Bad Request"))
    ∧ (∀ error,
         createProtocol request = inr error →
         es = [Uncaught error]
         ∧ step w (Upgrade request desired buffered nodeSocket) = emit es w)
    ∧ (∀ options,
         createProtocol request = inl options →
         caught es
         ∧ ∀ error,
             (connect desired (next_protocol w) options buffered nodeSocket
                (alloc_protocol w).2).2 = Some error →
             ∃ es0, es = es0 ++ [ProtocolDispose (next_protocol w)
                                   (Some error)]).
Proof.
  simpl. unfold upgrade.
  assert (H400 : upgrade_header request ≠ Some "websocket" →
                 createProtocol request
                 = inr (Error "HTTP/1.1 400 Bad Request")).
  { intros Hu. unfold createProtocol. by rewrite decide_False. }
  destruct (createProtocol request) as [options|e] eqn:Hcp.
  - destruct (caught_connect desired (next_protocol w) options buffered
                nodeSocket (alloc_protocol w).2) as (es & Htr & Hes).
    unfold alloc_protocol in *. simpl in *.
    match type of Htr with trace (connect ?d ?p ?o ?b ?n ?w0).1 = _ =>
      destruct (connect d p o b n w0) as [w1 [e|]] eqn:Hconn
    end; simpl in *.
    + exists (es ++ [ProtocolDispose (next_protocol w) (Some e)]).
      rewrite Htr, <- app_assoc. split; [done|]. split; [done|].
      split; [done|]. intros options' [= <-]. split.
      * unfold caught in *. by rewrite forallb_app, Hes.
      * rewrite Hconn. intros error [= <-]. by exists es.
    + exists es. split; [done|]. split; [done|]. split; [done|].
      intros options' [= <-]. split; [done|]. rewrite Hconn.
      by intros error [=].
  - exists [Uncaught e]. split; [done|]. split; [done|]. split.
    + by intros error [= <-].
    + by intros options [=].
Qed.

End UpgradeErrors.
